(** * azlogconvert: record-to-entry reconstruction, verified

    A shallow embedding of [azlogconvert.py]: the header matcher
    ([LogRecord.entry_header]), the tick clock ([LogRecord.occurred_at]),
    the tag normalizer ([normalize_tag]), the entry accumulator
    ([OpenedLogEntry]), the generator [convert_records] and the grouper
    [split_records], followed by the properties proved about them. *)

From Stdlib Require Import ZArith String Ascii List Bool Lia.
From stdpp Require Import gmap strings list fin_maps.

Local Open Scope string_scope.
Local Open Scope list_scope.
Local Open Scope Z_scope.
Local Arguments String.append !_ _ / : simpl nomatch.

(** ** Strings

    A Python [str] is modelled by a [string] whose characters are the code
    points U+0000..U+00FF. *)

Definition code (c : ascii) : nat := nat_of_ascii c.

(** [\d] of the [re] module on a [str] pattern: a Unicode decimal digit;
    below U+0100 these are '0'..'9'. *)
Definition is_digit (c : ascii) : bool :=
  ((48 <=? code c) && (code c <=? 57))%nat.

(** [str.isspace] on one character, as used by [str.strip()]: below U+0100
    the whitespace characters are U+0009..U+000D, U+001C..U+0020, U+0085
    and U+00A0. *)
Definition is_space (c : ascii) : bool :=
  (((9 <=? code c) && (code c <=? 13))
   || ((28 <=? code c) && (code c <=? 32))
   || (code c =? 133) || (code c =? 160))%nat.

(** [s.startswith(prefix)] *)
Fixpoint startswith (s prefix : string) {struct prefix} : bool :=
  match prefix with
  | EmptyString => true
  | String a prefix' =>
      match s with
      | EmptyString => false
      | String b s' => Ascii.eqb a b && startswith s' prefix'
      end
  end.

(** [s[n:]] *)
Fixpoint slice_from (n : nat) (s : string) : string :=
  match n, s with
  | O, _ => s
  | S _, EmptyString => EmptyString
  | S n', String _ s' => slice_from n' s'
  end.

(** The string ["\n"]. *)
Definition newline : string := String "010" EmptyString.

(** [sep.join(ls)] *)
Definition join (sep : string) (ls : list string) : string :=
  String.concat sep ls.

(** [s.replace(".", "_")]: both strings have one character, so the
    replacement acts character by character. *)
Fixpoint replace_dot (s : string) : string :=
  match s with
  | EmptyString => EmptyString
  | String c s' => String (if Ascii.eqb c "." then "_"%char else c) (replace_dot s')
  end.

Fixpoint lstrip (s : string) : string :=
  match s with
  | EmptyString => EmptyString
  | String c s' => if is_space c then lstrip s' else s
  end.

Fixpoint rstrip (s : string) : string :=
  match s with
  | EmptyString => EmptyString
  | String c s' =>
      match rstrip s' with
      | EmptyString => if is_space c then EmptyString else String c EmptyString
      | r => String c r
      end
  end.

(** [s.strip()] *)
Definition strip (s : string) : string := rstrip (lstrip s).

(** ** The bracket pattern

    [BRACKET_PATTERN = re.compile(r'\[\d]')] matches exactly three
    characters: '[', one digit, ']'. *)
Definition BRACKET_PATTERN (a b c : ascii) : bool :=
  Ascii.eqb a "[" && is_digit b && Ascii.eqb c "]".

(** [BRACKET_PATTERN.sub("", s)]: one scan from the left; at a match the
    three characters are dropped and the scan resumes after them, otherwise
    one character is kept and the scan moves one position. *)
Fixpoint sub_empty (s : string) : string :=
  match s with
  | EmptyString => EmptyString
  | String a s1 =>
      match s1 with
      | String b (String c s3) =>
          if BRACKET_PATTERN a b c then sub_empty s3 else String a (sub_empty s1)
      | _ => String a (sub_empty s1)
      end
  end.

(** [BRACKET_PATTERN.search(s) is not None] *)
Fixpoint search (s : string) : bool :=
  match s with
  | EmptyString => false
  | String a s1 =>
      match s1 with
      | String b (String c _) => BRACKET_PATTERN a b c || search s1
      | _ => search s1
      end
  end.

Definition normalize_tag (source : string) : string :=
  strip (replace_dot (sub_empty source)).

(** ** Exceptions

    Both [raise ValueError(...)] sites are kept apart by what their message
    is built from; [OverflowError] is what the float division, [timedelta]
    and [datetime.__add__] raise on a value out of range. *)
Inductive exn : Type :=
  | ValueError_no_messages (tag : string) (occurred_at : Z)
  | ValueError_without_header (message : string)
  | OverflowError.

Definition result (A : Type) : Type := (exn + A)%type.

Definition bind {A B : Type} (r : result A) (k : A -> result B) : result B :=
  match r with
  | inl e => inl e
  | inr a => k a
  end.

Notation "'let*' x ':=' r 'in' k" := (bind r (fun x => k))
  (at level 10, x name, r at level 200, k at level 200).

(** ** Floating point and [datetime]

    A finite binary64 number is [mant * 2 ^ expo]. *)
Record binary64 : Type := { mant : Z; expo : Z }.

(** [n / d] rounded to the nearest integer, ties to the even one ([0 < d]). *)
Definition round_half_even (n d : Z) : Z :=
  let q := n / d in
  let r := n mod d in
  if 2 * r <? d then q
  else if d <? 2 * r then q + 1
  else if Z.even q then q else q + 1.

(** The binary64 number nearest to [n / d] for [0 <= n], [0 < d]: 53
    significant bits, exponent not below -1074, ties to even. *)
Definition nearest_binary64 (n d : Z) : binary64 :=
  let e := Z.max (Z.log2 (n * 2 ^ 1074 / d) - 1126) (-1074) in
  {| mant := if 0 <=? e then round_half_even n (d * 2 ^ e)
             else round_half_even (n * 2 ^ (- e)) d;
     expo := e |}.

(** [a / b] on two [int]s with [0 < b]: the correctly rounded quotient, or
    [OverflowError] when it is too large for a float. *)
Definition true_div (a b : Z) : result binary64 :=
  let x := nearest_binary64 (Z.abs a) b in
  if 2 ^ 1024 <=? mant x * 2 ^ Z.max 0 (expo x) then inl OverflowError
  else inr {| mant := Z.sgn a * mant x; expo := expo x |}.

(** [datetime.timedelta(microseconds=x)] for a float [x]: [x] is rounded
    to a whole number of microseconds, ties to even; more than 999999999
    days in either direction is an [OverflowError].  The value is the
    total number of microseconds. *)
Definition timedelta (x : binary64) : result Z :=
  let us := if 0 <=? expo x then mant x * 2 ^ expo x
            else round_half_even (mant x) (2 ^ (- expo x)) in
  let days := us / 86400000000 in
  if (days <? -999999999) || (999999999 <? days) then inl OverflowError
  else inr us.

(** A [datetime] is the number of microseconds since
    [datetime.min = datetime(1, 1, 1)]; [datetime.max] is
    9999-12-31 23:59:59.999999, the last microsecond of day 3652059. *)
Definition datetime_min : Z := 0.
Definition datetime_max : Z := 3652059 * 86400000000 - 1.

(** [dt + td] *)
Definition datetime_add (dt td : Z) : result Z :=
  let r := dt + td in
  if (r <? datetime_min) || (datetime_max <? r) then inl OverflowError
  else inr r.

(** [pytz.UTC.localize(dt)] attaches the UTC zone to a naive [datetime]:
    the instant, counted from 0001-01-01T00:00:00Z, is the same number. *)
Definition UTC_localize (dt : Z) : Z := dt.

(** ** The data classes *)

Definition LOG_LEVELS : list string := ["info"; "warn"; "fail"].

Module LogEntryHeader.
Record t : Type := { level : string; message : string }.
End LogEntryHeader.

Module LogRecord.
Record t : Type := { ticks : Z; message : string }.

(** The [for level in LOG_LEVELS] loop of [entry_header]. *)
Fixpoint entry_header_for (levels : list string) (msg : string)
  : option LogEntryHeader.t :=
  match levels with
  | [] => None
  | level :: levels' =>
      if negb (startswith msg (level +:+ ": ")) then entry_header_for levels' msg
      else
        let msg' := slice_from (String.length level + 2) msg in
        Some {| LogEntryHeader.level := level; LogEntryHeader.message := msg' |}
  end.

Definition entry_header (self : t) : option LogEntryHeader.t :=
  entry_header_for LOG_LEVELS (message self).

Definition occurred_at (self : t) : result Z :=
  let* x := true_div (ticks self) 10 in
  let* td := timedelta x in
  let* dt := datetime_add datetime_min td in
  inr (UTC_localize dt).
End LogRecord.

Module LogEntry.
Record t : Type :=
  { occurred_at : Z; tag : string; level : string; message : string }.
End LogEntry.

Module OpenedLogEntry.
Record t : Type :=
  { occurred_at : Z; tag : string; level : string; messages : list string }.

Definition init (header : LogEntryHeader.t) (occurred_at : Z) : t :=
  {| level := LogEntryHeader.level header;
     tag := normalize_tag (LogEntryHeader.message header);
     occurred_at := occurred_at;
     messages := [] |}.

Definition add_message (self : t) (message : string) : t :=
  {| level := level self; tag := tag self; occurred_at := occurred_at self;
     messages := messages self ++ [message] |}.

Definition close (self : t) : result LogEntry.t :=
  match messages self with
  | [] => inl (ValueError_no_messages (tag self) (occurred_at self))
  | _ :: _ =>
      inr {| LogEntry.occurred_at := occurred_at self;
             LogEntry.tag := tag self;
             LogEntry.level := level self;
             LogEntry.message := strip (join newline (messages self)) |}
  end.
End OpenedLogEntry.

(** ** Generators

    What a consumer sees of a generator run to its end: the values yielded,
    in order, and the exception that ended the iteration, if one did. *)
Definition generated (A : Type) : Type := (list A * option exn)%type.

Definition yield {A : Type} (a : A) (rest : generated A) : generated A :=
  (a :: fst rest, snd rest).

Definition raise {A : Type} (e : exn) : generated A := ([], Some e).

(** The [for record in source] loop of [convert_records], from the state
    [opened]; the function returns when the loop ends. *)
Fixpoint convert_records_from (opened : option OpenedLogEntry.t)
    (source : list LogRecord.t) : generated LogEntry.t :=
  match source with
  | [] => ([], None)
  | record :: source' =>
      let header := LogRecord.entry_header record in
      match LogRecord.occurred_at record with
      | inl e => raise e
      | inr occurred_at =>
          match header with
          | None =>
              match opened with
              | None => raise (ValueError_without_header (LogRecord.message record))
              | Some o =>
                  convert_records_from
                    (Some (OpenedLogEntry.add_message o (LogRecord.message record)))
                    source'
              end
          | Some h =>
              let continue_ :=
                convert_records_from (Some (OpenedLogEntry.init h occurred_at)) source' in
              match opened with
              | Some o =>
                  match OpenedLogEntry.close o with
                  | inl e => raise e
                  | inr entry => yield entry continue_
                  end
              | None => continue_
              end
          end
      end
  end.

Definition convert_records (source : list LogRecord.t) : generated LogEntry.t :=
  convert_records_from None source.

(** [groups[entry.tag].append(entry)] on a [defaultdict(list)]. *)
Definition append_to_group (groups : gmap string (list LogEntry.t))
    (entry : LogEntry.t) : gmap string (list LogEntry.t) :=
  <[LogEntry.tag entry := default [] (groups !! LogEntry.tag entry) ++ [entry]]> groups.

(** [split_records] drains its source; an exception of the source leaves
    through it and no mapping is returned. *)
Definition split_records (source : generated LogEntry.t)
  : result (gmap string (list LogEntry.t)) :=
  match snd source with
  | Some e => inl e
  | None => inr (foldl append_to_group ∅ (fst source))
  end.

(** A finite sequence handed to a consumer as an iterable. *)
Definition iter {A : Type} (l : list A) : generated A := (l, None).

(** [records = split_records(convert_records(read_records(f)))] of
    [convert_files], from the records read. *)
Definition convert (records : list LogRecord.t)
  : result (gmap string (list LogEntry.t)) :=
  split_records (convert_records records).

(** The number of header lines of an input. *)
Definition is_header (record : LogRecord.t) : bool :=
  match LogRecord.entry_header record with Some _ => true | None => false end.

Definition header_count (source : list LogRecord.t) : nat :=
  length (List.filter is_header source).


(** ** Vocabulary of the statements *)

(** Every character of [s] satisfies [p]. *)
Fixpoint all_chars (p : ascii -> bool) (s : string) : bool :=
  match s with
  | EmptyString => true
  | String c s' => p c && all_chars p s'
  end.

(** A line made of whitespace only (the empty line included). *)
Definition whitespace_only (line : string) : Prop := all_chars is_space line = true.

Definition not_dot (c : ascii) : bool := negb (Ascii.eqb c ".").

(** [occurred_at] returns: the ticks are within what the float division,
    [timedelta] and [datetime] can hold. *)
Definition clock_ok (record : LogRecord.t) : Prop :=
  exists occurred_at, LogRecord.occurred_at record = inr occurred_at.

(** A whole number that binary64 holds exactly: 53 significant bits. *)
Definition binary64_integer (k : Z) : Prop :=
  exists m j, 0 <= m < 2 ^ 53 /\ 0 <= j /\ k = m * 2 ^ j.

Definition record (ticks : Z) (message : string) : LogRecord.t :=
  {| LogRecord.ticks := ticks; LogRecord.message := message |}.

(** The inputs of the scenarios A, B and C. *)
Definition scenario_A : list LogRecord.t :=
  [record 100 "info: Boot"; record 200 "Started ok";
   record 300 "warn: Boot"; record 400 "Retrying"].

Definition scenario_B : list LogRecord.t := [record 50 "stray line"].

Definition scenario_C : list LogRecord.t :=
  [record 10 "info: A"; record 20 "info: B"].

(** A header whose tag is only a bracket marker, one line, and the header
    that closes the entry. *)
Definition marker_only_tag : list LogRecord.t :=
  [record 10 "info: [1]"; record 20 "line"; record 30 "info: next"].

(** The first and the last character of a string. *)
Definition first_char (s : string) : option ascii :=
  match s with
  | EmptyString => None
  | String c _ => Some c
  end.

Fixpoint last_char (s : string) : option ascii :=
  match s with
  | EmptyString => None
  | String c EmptyString => Some c
  | String _ s' => last_char s'
  end.

(** No whitespace at either end. *)
Definition no_edge_space (s : string) : Prop :=
  (forall c, first_char s = Some c -> is_space c = false)
  /\ (forall c, last_char s = Some c -> is_space c = false).

(** A header line followed by the continuation lines up to the next header
    line (or the end of the input). *)
Record block : Type :=
  { block_header : LogRecord.t; block_lines : list LogRecord.t }.

Definition block_records (b : block) : list LogRecord.t :=
  block_header b :: block_lines b.

(** The input made of the blocks, one after the other. *)
Definition blocks_records (blocks : list block) : list LogRecord.t :=
  concat (block_records <$> blocks).

(** The header is a header line, the lines are continuation lines, and the
    clock accepts the ticks of all of them. *)
Definition well_formed (b : block) : Prop :=
  is_header (block_header b) = true
  /\ clock_ok (block_header b)
  /\ Forall (fun line => is_header line = false /\ clock_ok line) (block_lines b).

(** The entry of a block: instant, level and tag of its header, and its
    lines joined by newlines and stripped. *)
Definition block_entry (b : block) (entry : LogEntry.t) : Prop :=
  exists h instant,
    LogRecord.entry_header (block_header b) = Some h
    /\ LogRecord.occurred_at (block_header b) = inr instant
    /\ entry = {| LogEntry.occurred_at := instant;
                  LogEntry.tag := normalize_tag (LogEntryHeader.message h);
                  LogEntry.level := LogEntryHeader.level h;
                  LogEntry.message :=
                    strip (join newline (LogRecord.message <$> block_lines b)) |}.

(** [add_message] called once for each line, in order. *)
Definition add_messages (self : OpenedLogEntry.t) (lines : list string)
  : OpenedLogEntry.t :=
  foldl OpenedLogEntry.add_message self lines.

(** What every yielded entry satisfies. *)
Definition entry_ok (entry : LogEntry.t) : Prop :=
  LogEntry.level entry ∈ LOG_LEVELS
  /\ all_chars not_dot (LogEntry.tag entry) = true
  /\ no_edge_space (LogEntry.tag entry)
  /\ no_edge_space (LogEntry.message entry)
  /\ datetime_min <= LogEntry.occurred_at entry <= datetime_max.

Definition opened_ok (o : OpenedLogEntry.t) : Prop :=
  OpenedLogEntry.level o ∈ LOG_LEVELS
  /\ all_chars not_dot (OpenedLogEntry.tag o) = true
  /\ no_edge_space (OpenedLogEntry.tag o)
  /\ datetime_min <= OpenedLogEntry.occurred_at o <= datetime_max.

(** Scenario A as blocks. *)
Definition scenario_A_blocks : list block :=
  [{| block_header := record 100 "info: Boot";
      block_lines := [record 200 "Started ok"] |};
   {| block_header := record 300 "warn: Boot";
      block_lines := [record 400 "Retrying"] |}].

(** The number of microseconds [occurred_at] computes from the ticks before
    any range check: the float quotient by 10, rounded to a whole number,
    ties to even. *)
Definition clock_us (ticks : Z) : Z :=
  let x := nearest_binary64 (Z.abs ticks) 10 in
  let m := Z.sgn ticks * mant x in
  if 0 <=? expo x then m * 2 ^ expo x else round_half_even m (2 ^ (- expo x)).

(** * Properties *)

(** ** Strings *)

Lemma startswith_spec (p s : string) :
  startswith s p = true <-> exists rest, s = p +:+ rest.
Proof.
  revert s. induction p as [|a p IH]; intros s; simpl.
  - split; [intros _; exists s; reflexivity | reflexivity].
  - destruct s as [|b s]; simpl.
    + split; [discriminate | intros [rest H]; discriminate].
    + rewrite andb_true_iff, Ascii.eqb_eq, IH. split.
      * intros [-> [rest ->]]. eauto.
      * intros [rest H]. injection H as -> ->. eauto.
Qed.

Lemma slice_from_app (p rest : string) :
  slice_from (String.length p) (p +:+ rest) = rest.
Proof. induction p as [|a p IH]; simpl; [by destruct rest | exact IH]. Qed.

Lemma length_app (s t : string) :
  String.length (s +:+ t) = (String.length s + String.length t)%nat.
Proof. induction s as [|a s IH]; simpl; [done | by rewrite IH]. Qed.

Lemma append_assoc (s t u : string) : (s +:+ t) +:+ u = s +:+ (t +:+ u).
Proof. induction s as [|a s IH]; simpl; [done | by rewrite IH]. Qed.

(** ** The header matcher *)

Lemma entry_header_for_Some (levels : list string) (msg : string) (h : LogEntryHeader.t) :
  LogRecord.entry_header_for levels msg = Some h ->
  LogEntryHeader.level h ∈ levels
  /\ msg = LogEntryHeader.level h +:+ ": " +:+ LogEntryHeader.message h.
Proof.
  induction levels as [|level levels IH]; simpl; [discriminate|].
  destruct (startswith msg (level +:+ ": ")) eqn:E; simpl.
  - intros [= <-]; simpl. split; [left|].
    apply startswith_spec in E as [rest ->].
    replace (String.length level + 2)%nat with (String.length (level +:+ ": "))
      by (rewrite length_app; reflexivity).
    by rewrite slice_from_app, append_assoc.
  - intros H. destruct (IH H) as [? ?]. split; [by right | done].
Qed.

Lemma entry_header_for_None (levels : list string) (msg : string) :
  LogRecord.entry_header_for levels msg = None <->
  forall level rest, level ∈ levels -> msg <> level +:+ ": " +:+ rest.
Proof.
  induction levels as [|level levels IH]; simpl.
  - split; [|done]. intros _ level rest H. by apply elem_of_nil in H.
  - destruct (startswith msg (level +:+ ": ")) eqn:E; simpl.
    + split; [discriminate|]. intros H.
      apply startswith_spec in E as [rest ->].
      exfalso. apply (H level rest); [left | by rewrite append_assoc].
    + rewrite IH. split.
      * intros H l rest [->|Hl]%elem_of_cons; [|by apply H].
        intros ->.
        assert (startswith (level +:+ ": " +:+ rest) (level +:+ ": ") = true) as E'
          by (apply startswith_spec; exists rest; by rewrite append_assoc).
        simpl in E'. congruence.
      * intros H l rest Hl. apply H. by right.
Qed.

Lemma LOG_LEVELS_exclusive (l1 l2 r1 r2 : string) :
  l1 ∈ LOG_LEVELS -> l2 ∈ LOG_LEVELS ->
  l1 +:+ ": " +:+ r1 = l2 +:+ ": " +:+ r2 -> l1 = l2.
Proof.
  unfold LOG_LEVELS. rewrite !elem_of_cons, !elem_of_nil.
  intros [->|[->|[->|[]]]] [->|[->|[->|[]]]]; simpl; (done || discriminate).
Qed.

(** When at most one level of the list is a prefix of the message, the loop
    finds it wherever it stands in the list. *)
Lemma entry_header_for_unique (levels : list string) (level rest : string) :
  level ∈ levels ->
  (forall l r, l ∈ levels -> level +:+ ": " +:+ rest = l +:+ ": " +:+ r -> l = level) ->
  LogRecord.entry_header_for levels (level +:+ ": " +:+ rest)
  = Some {| LogEntryHeader.level := level; LogEntryHeader.message := rest |}.
Proof.
  intros Hin Huniq.
  destruct (LogRecord.entry_header_for levels (level +:+ ": " +:+ rest)) as [h|] eqn:E.
  - destruct (entry_header_for_Some _ _ _ E) as [Hl Hmsg].
    assert (LogEntryHeader.level h = level) as Hlevel by eauto.
    destruct h as [l m]; simpl in *. subst l. f_equal. f_equal.
    clear -Hmsg. induction level as [|a level IH]; simpl in Hmsg.
    + by injection Hmsg.
    + injection Hmsg as Hmsg. auto.
  - rewrite entry_header_for_None in E. by destruct (E level rest Hin).
Qed.

(** C7: [entry_header] returns a header exactly for the messages made of a
    level of [LOG_LEVELS], then ": ", then a remainder, and the header holds
    that level and that remainder; it returns [None] exactly when no such
    prefix starts the message; no message starts with two of the prefixes;
    and the loop gives the same result whatever the order of the levels. *)
Theorem entry_header_prefix (record : LogRecord.t) :
  let msg := LogRecord.message record in
  (forall h, LogRecord.entry_header record = Some h <->
     LogEntryHeader.level h ∈ LOG_LEVELS
     /\ msg = LogEntryHeader.level h +:+ ": " +:+ LogEntryHeader.message h)
  /\ (LogRecord.entry_header record = None <->
      forall level rest, level ∈ LOG_LEVELS -> msg <> level +:+ ": " +:+ rest)
  /\ (forall l1 l2 r1 r2, l1 ∈ LOG_LEVELS -> l2 ∈ LOG_LEVELS ->
      msg = l1 +:+ ": " +:+ r1 -> msg = l2 +:+ ": " +:+ r2 -> l1 = l2)
  /\ (forall levels, levels ≡ₚ LOG_LEVELS ->
      LogRecord.entry_header_for levels msg = LogRecord.entry_header record).
Proof.
  intros msg. unfold LogRecord.entry_header. fold msg.
  assert (forall levels level rest, levels ≡ₚ LOG_LEVELS -> level ∈ LOG_LEVELS ->
            msg = level +:+ ": " +:+ rest ->
            LogRecord.entry_header_for levels msg
            = Some {| LogEntryHeader.level := level; LogEntryHeader.message := rest |})
    as Hfound.
  { intros levels level rest Hperm Hin ->.
    apply entry_header_for_unique; [by rewrite Hperm|].
    intros l r Hl Heq. rewrite Hperm in Hl. symmetry.
    by apply (LOG_LEVELS_exclusive level l rest r). }
  split; [|split; [|split]].
  - intros h. split; [apply entry_header_for_Some|].
    intros [Hin Hmsg]. rewrite (Hfound LOG_LEVELS _ _ (reflexivity _) Hin Hmsg).
    by destruct h.
  - apply entry_header_for_None.
  - intros l1 l2 r1 r2 H1 H2 E1 E2.
    apply (LOG_LEVELS_exclusive l1 l2 r1 r2); congruence.
  - intros levels Hperm.
    destruct (LogRecord.entry_header_for LOG_LEVELS msg) as [h|] eqn:E.
    + destruct (entry_header_for_Some _ _ _ E) as [Hin Hmsg].
      rewrite (Hfound levels _ _ Hperm Hin Hmsg). by destruct h.
    + apply entry_header_for_None. intros level rest Hin.
      rewrite Hperm in Hin. revert level rest Hin. by apply entry_header_for_None.
Qed.

(** ** The tag normalizer *)

Lemma all_chars_app (p : ascii -> bool) (s t : string) :
  all_chars p (s +:+ t) = all_chars p s && all_chars p t.
Proof. induction s as [|a s IH]; simpl; [done | by rewrite IH, andb_assoc]. Qed.

Lemma all_chars_lstrip (p : ascii -> bool) (s : string) :
  all_chars p s = true -> all_chars p (lstrip s) = true.
Proof.
  induction s as [|a s IH]; simpl; [done|].
  intros [Ha Hs]%andb_true_iff. destruct (is_space a); simpl; [auto|].
  by rewrite Ha, Hs.
Qed.

Lemma all_chars_rstrip (p : ascii -> bool) (s : string) :
  all_chars p s = true -> all_chars p (rstrip s) = true.
Proof.
  induction s as [|a s IH]; simpl; [done|].
  intros [Ha Hs]%andb_true_iff. specialize (IH Hs).
  destruct (rstrip s); [destruct (is_space a)|]; simpl in *; by rewrite ?Ha, ?IH.
Qed.

Lemma lstrip_whitespace (s : string) : whitespace_only s -> lstrip s = "".
Proof.
  unfold whitespace_only. induction s as [|a s IH]; simpl; [done|].
  intros [-> Hs]%andb_true_iff. auto.
Qed.

Lemma strip_whitespace (s : string) : whitespace_only s -> strip s = "".
Proof. intros H. unfold strip. by rewrite lstrip_whitespace. Qed.

Lemma lstrip_not_space (a : ascii) (s : string) :
  is_space a = false -> lstrip (String a s) = String a s.
Proof. intros H. simpl. by rewrite H. Qed.

Lemma rstrip_not_space (a : ascii) (s : string) :
  is_space a = false -> rstrip (String a s) = String a (rstrip s).
Proof. intros H. simpl. rewrite H. by destruct (rstrip s). Qed.

Lemma rstrip_idempotent (s : string) : rstrip (rstrip s) = rstrip s.
Proof.
  induction s as [|a s IH]; simpl; [done|].
  destruct (rstrip s) as [|b r] eqn:E.
  - destruct (is_space a) eqn:Ha; simpl; [done | by rewrite Ha].
  - change (rstrip (String a (String b r)) = String a (String b r)).
    simpl. simpl in IH. destruct (rstrip r); rewrite IH; done.
Qed.

Lemma lstrip_head (s : string) :
  lstrip s = "" \/ exists a t, lstrip s = String a t /\ is_space a = false.
Proof.
  induction s as [|a s IH]; simpl; [by left|].
  destruct (is_space a) eqn:Ha; [done | right; eauto].
Qed.

Lemma strip_idempotent (s : string) : strip (strip s) = strip s.
Proof.
  unfold strip. destruct (lstrip_head s) as [->|(a & t & -> & Ha)]; [done|].
  rewrite (rstrip_not_space _ _ Ha), (lstrip_not_space _ _ Ha).
  rewrite <- (rstrip_not_space _ _ Ha). apply rstrip_idempotent.
Qed.

Lemma length_lstrip (s : string) : (String.length (lstrip s) <= String.length s)%nat.
Proof. induction s as [|a s IH]; simpl; [done|]. destruct (is_space a); simpl; lia. Qed.

Lemma length_rstrip (s : string) : (String.length (rstrip s) <= String.length s)%nat.
Proof.
  induction s as [|a s IH]; simpl; [done|].
  destruct (rstrip s); [destruct (is_space a)|]; simpl in *; lia.
Qed.

Lemma length_strip (s : string) : (String.length (strip s) <= String.length s)%nat.
Proof.
  unfold strip. pose proof (length_rstrip (lstrip s)). pose proof (length_lstrip s). lia.
Qed.

Lemma length_replace_dot (s : string) :
  String.length (replace_dot s) = String.length s.
Proof. induction s as [|a s IH]; simpl; [done | by rewrite IH]. Qed.

Lemma replace_dot_not_dot (s : string) : all_chars not_dot (replace_dot s) = true.
Proof.
  induction s as [|a s IH]; simpl; [done|]. rewrite IH, andb_true_r.
  unfold not_dot. by destruct (Ascii.eqb a ".") eqn:E; [|rewrite E].
Qed.

Lemma replace_dot_id (s : string) : all_chars not_dot s = true -> replace_dot s = s.
Proof.
  induction s as [|a s IH]; simpl; [done|]. unfold not_dot at 1.
  intros [Ha Hs]%andb_true_iff. rewrite (IH Hs).
  by destruct (Ascii.eqb a ".").
Qed.

(** Induction on strings that may step over three characters at once, as
    the scan of [sub_empty] does. *)
Lemma string_length_ind (P : string -> Prop) :
  (forall s, (forall t, (String.length t < String.length s)%nat -> P t) -> P s) ->
  forall s, P s.
Proof.
  intros step s.
  assert (forall n t, (String.length t < n)%nat -> P t) as H.
  { induction n as [|n IH]; intros t Ht; [lia|].
    apply step. intros u Hu. apply IH. lia. }
  apply (H (S (String.length s))). lia.
Qed.

(** The scan with three characters ahead. *)
Lemma sub_empty_three (a b c : ascii) (s : string) :
  sub_empty (String a (String b (String c s)))
  = if BRACKET_PATTERN a b c then sub_empty s
    else String a (sub_empty (String b (String c s))).
Proof. reflexivity. Qed.

Lemma search_three (a b c : ascii) (s : string) :
  search (String a (String b (String c s)))
  = BRACKET_PATTERN a b c || search (String b (String c s)).
Proof. reflexivity. Qed.

Lemma length_sub_empty (s : string) :
  (String.length (sub_empty s) <= String.length s)%nat.
Proof.
  induction s as [s IH] using string_length_ind.
  destruct s as [|a [|b [|c s3]]]; simpl; try lia.
  destruct (BRACKET_PATTERN a b c).
  - pose proof (IH s3). simpl in *. lia.
  - pose proof (IH (String b (String c s3))). simpl in *. lia.
Qed.

Lemma sub_empty_shorter (s : string) :
  search s = true -> (String.length (sub_empty s) < String.length s)%nat.
Proof.
  induction s as [|a s1 IH]; [discriminate|].
  destruct s1 as [|b [|c s3]]; try discriminate.
  rewrite search_three, sub_empty_three.
  destruct (BRACKET_PATTERN a b c); simpl orb.
  - intros _. pose proof (length_sub_empty s3). simpl. lia.
  - intros H. specialize (IH H). simpl String.length in *. lia.
Qed.

Lemma sub_empty_id (s : string) : search s = false -> sub_empty s = s.
Proof.
  induction s as [|a s1 IH]; [done|].
  destruct s1 as [|b [|c s3]]; try done.
  rewrite search_three, sub_empty_three.
  intros [-> H]%orb_false_iff. by rewrite (IH H).
Qed.

Lemma normalize_tag_shorter (s : string) :
  search s = true -> (String.length (normalize_tag s) < String.length s)%nat.
Proof.
  intros H. unfold normalize_tag.
  pose proof (length_strip (replace_dot (sub_empty s))).
  pose proof (length_replace_dot (sub_empty s)).
  pose proof (sub_empty_shorter s H). lia.
Qed.

(** C3, as the code has it: a second normalization changes nothing exactly
    when the first one left no bracket marker behind. *)
Theorem normalize_tag_idempotent_iff (s : string) :
  normalize_tag (normalize_tag s) = normalize_tag s
  <-> search (normalize_tag s) = false.
Proof.
  split.
  - intros Heq. destruct (search (normalize_tag s)) eqn:E; [|done].
    apply normalize_tag_shorter in E. rewrite Heq in E. lia.
  - intros H. unfold normalize_tag at 1.
    rewrite (sub_empty_id _ H), replace_dot_id.
    + apply strip_idempotent.
    + unfold normalize_tag, strip.
      apply all_chars_rstrip, all_chars_lstrip, replace_dot_not_dot.
Qed.

(** C3 fails as stated: one scan over "[[1]2]" removes "[1]" and leaves
    "[2]", which a second normalization removes. *)
Lemma normalize_tag_not_idempotent :
  normalize_tag (normalize_tag "[[1]2]") <> normalize_tag "[[1]2]".
Proof. vm_compute. discriminate. Qed.

Lemma all_chars_impl (p q : ascii -> bool) (s : string) :
  (forall c, p c = true -> q c = true) ->
  all_chars p s = true -> all_chars q s = true.
Proof.
  intros Hpq. induction s as [|a s IH]; simpl; [done|].
  intros [Ha Hs]%andb_true_iff. by rewrite (Hpq _ Ha), (IH Hs).
Qed.

Lemma is_space_not_dot (c : ascii) : is_space c = true -> not_dot c = true.
Proof.
  intros H. unfold not_dot. destruct (Ascii.eqb_spec c "."); [|done].
  subst c. vm_compute in H. discriminate.
Qed.

Lemma is_space_not_bracket (c : ascii) : is_space c = true -> Ascii.eqb c "[" = false.
Proof.
  intros H. destruct (Ascii.eqb_spec c "["); [|done].
  subst c. vm_compute in H. discriminate.
Qed.

Lemma whitespace_no_marker (s : string) : whitespace_only s -> search s = false.
Proof.
  unfold whitespace_only. induction s as [|a s1 IH]; [done|].
  intros [Ha Hs]%andb_true_iff. specialize (IH Hs).
  destruct s1 as [|b [|c s3]]; try done.
  rewrite search_three, IH. unfold BRACKET_PATTERN. by rewrite (is_space_not_bracket _ Ha).
Qed.

Lemma normalize_tag_whitespace (s : string) : whitespace_only s -> normalize_tag s = "".
Proof.
  intros H. unfold normalize_tag.
  rewrite (sub_empty_id _ (whitespace_no_marker _ H)).
  rewrite replace_dot_id by (revert H; apply all_chars_impl, is_space_not_dot).
  by apply strip_whitespace.
Qed.

Lemma join_whitespace (lines : list string) :
  Forall whitespace_only lines -> whitespace_only (join newline lines).
Proof.
  unfold whitespace_only, join. induction 1 as [|line lines Hline Hlines IH]; [done|].
  destruct lines as [|line' lines]; [done|].
  change (all_chars is_space (line +:+ newline +:+ String.concat newline (line' :: lines)) = true).
  by rewrite !all_chars_app, Hline, IH.
Qed.

(** ** Closing an entry *)

(** C10: an entry with at least one accumulated line closes; its message
    is the lines joined by newlines and stripped, which is the empty string
    when every line is whitespace only. *)
Theorem close_whitespace_lines (self : OpenedLogEntry.t) :
  OpenedLogEntry.messages self <> [] ->
  exists entry,
    OpenedLogEntry.close self = inr entry
    /\ LogEntry.message entry = strip (join newline (OpenedLogEntry.messages self))
    /\ (Forall whitespace_only (OpenedLogEntry.messages self) ->
        LogEntry.message entry = "").
Proof.
  intros Hne. unfold OpenedLogEntry.close.
  destruct (OpenedLogEntry.messages self) as [|line lines] eqn:E; [done|].
  eexists. split; [reflexivity|]. cbn [LogEntry.message]. split; [done|].
  intros H. by apply strip_whitespace, join_whitespace.
Qed.

Lemma close_whitespace_lines_witness :
  exists entry,
    OpenedLogEntry.close
      {| OpenedLogEntry.occurred_at := 10; OpenedLogEntry.tag := "Boot";
         OpenedLogEntry.level := "info"; OpenedLogEntry.messages := ["  "; ""; " "] |}
    = inr entry
    /\ LogEntry.message entry = "".
Proof.
  destruct (close_whitespace_lines
              {| OpenedLogEntry.occurred_at := 10; OpenedLogEntry.tag := "Boot";
                 OpenedLogEntry.level := "info";
                 OpenedLogEntry.messages := ["  "; ""; " "] |})
    as (entry & Hclose & _ & Hempty); [discriminate|].
  exists entry. split; [exact Hclose|].
  apply Hempty. repeat constructor.
Defined.

(** C9: the normalized tag can be empty: it is for "[1]" and for every
    whitespace-only remainder, and such an entry is yielded with the tag ""
    and grouped under the key "". *)
Theorem normalize_tag_empty :
  normalize_tag "[1]" = ""
  /\ (forall s, whitespace_only s -> normalize_tag s = "")
  /\ exists entry groups,
       convert_records marker_only_tag = ([entry], None)
       /\ LogEntry.tag entry = ""
       /\ convert marker_only_tag = inr groups
       /\ groups !! "" = Some [entry].
Proof.
  split; [reflexivity|]. split; [apply normalize_tag_whitespace|].
  eexists. eexists. split; [vm_compute; reflexivity|].
  split; [reflexivity|]. split.
  - unfold convert, split_records.
    replace (convert_records marker_only_tag) with
      ([{| LogEntry.occurred_at := 1; LogEntry.tag := ""; LogEntry.level := "info";
           LogEntry.message := "line" |}], @None exn) by (vm_compute; reflexivity).
    reflexivity.
  - simpl. unfold append_to_group. simpl. apply lookup_insert_eq.
Qed.

(** ** The entry builder *)

Lemma is_header_None (record : LogRecord.t) :
  is_header record = false <-> LogRecord.entry_header record = None.
Proof. unfold is_header. by destruct (LogRecord.entry_header record). Qed.

Lemma header_count_cons (record : LogRecord.t) (source : list LogRecord.t) :
  header_count (record :: source)
  = ((if is_header record then 1 else 0) + header_count source)%nat.
Proof. unfold header_count. simpl. by destruct (is_header record). Qed.


(** One step of the loop in the state [Some o]: a header closes [o]. *)
Lemma convert_records_from_Some_header (o : OpenedLogEntry.t)
    (record : LogRecord.t) (h : LogEntryHeader.t) (occurred_at : Z)
    (rest : list LogRecord.t) :
  LogRecord.entry_header record = Some h ->
  LogRecord.occurred_at record = inr occurred_at ->
  convert_records_from (Some o) (record :: rest)
  = match OpenedLogEntry.close o with
    | inl e => raise e
    | inr entry =>
        yield entry (convert_records_from (Some (OpenedLogEntry.init h occurred_at)) rest)
    end.
Proof. intros Hh Hclock. simpl. by rewrite Hclock, Hh. Qed.

Lemma close_no_messages (self : OpenedLogEntry.t) :
  OpenedLogEntry.messages self = [] ->
  OpenedLogEntry.close self
  = inl (ValueError_no_messages (OpenedLogEntry.tag self) (OpenedLogEntry.occurred_at self)).
Proof. intros H. unfold OpenedLogEntry.close. by rewrite H. Qed.

(** From an open entry, a run that raises nothing yields one entry per
    header line. *)
Lemma convert_records_from_Some_length (source : list LogRecord.t) :
  forall (o : OpenedLogEntry.t) (entries : list LogEntry.t),
  convert_records_from (Some o) source = (entries, None) ->
  length entries = header_count source.
Proof.
  induction source as [|record source IH]; intros o entries.
  - by intros [= <-].
  - rewrite header_count_cons. unfold is_header. simpl.
    destruct (LogRecord.occurred_at record) as [e|occurred_at]; [discriminate|].
    destruct (LogRecord.entry_header record) as [h|].
    + destruct (OpenedLogEntry.close o) as [e|entry]; [discriminate|].
      destruct (convert_records_from _ source) as [entries' r] eqn:E.
      unfold yield. simpl. intros [= <- ->]. simpl. f_equal. by eapply IH.
    + apply IH.
Qed.

(** From the start, a run that raises nothing yields one entry less than
    there are header lines: the entry open at the end is never closed. *)
Lemma convert_records_length (source : list LogRecord.t) (entries : list LogEntry.t) :
  convert_records source = (entries, None) ->
  length entries = pred (header_count source).
Proof.
  unfold convert_records. destruct source as [|record source]; [by intros [= <-]|].
  rewrite header_count_cons. unfold is_header. simpl.
  destruct (LogRecord.occurred_at record) as [e|occurred_at]; [discriminate|].
  destruct (LogRecord.entry_header record) as [h|]; [|discriminate].
  simpl. apply convert_records_from_Some_length.
Qed.

(** C4: closing an entry with no accumulated line raises the [ValueError]
    of [close]; a header that arrives while such an entry is open ends the
    generator with it; an exception of the generator leaves [convert] with
    no mapping; scenario C ends this way. *)
Theorem close_empty_raises :
  (forall self, OpenedLogEntry.messages self = [] ->
     OpenedLogEntry.close self
     = inl (ValueError_no_messages (OpenedLogEntry.tag self)
              (OpenedLogEntry.occurred_at self)))
  /\ (forall o record rest, OpenedLogEntry.messages o = [] ->
        is_header record = true -> clock_ok record ->
        convert_records_from (Some o) (record :: rest)
        = raise (ValueError_no_messages (OpenedLogEntry.tag o)
                   (OpenedLogEntry.occurred_at o)))
  /\ (forall source e, snd (convert_records source) = Some e -> convert source = inl e)
  /\ convert_records scenario_C = raise (ValueError_no_messages "A" 1)
  /\ convert scenario_C = inl (ValueError_no_messages "A" 1).
Proof.
  split; [apply close_no_messages|]. split; [|split; [|split]].
  - intros o record rest Ho Hh [occurred_at Hclock]. unfold is_header in Hh.
    destruct (LogRecord.entry_header record) as [h|] eqn:E; [|discriminate].
    rewrite (convert_records_from_Some_header _ _ _ _ _ E Hclock).
    by rewrite (close_no_messages _ Ho).
  - intros source e H. unfold convert, split_records. by rewrite H.
  - vm_compute. reflexivity.
  - vm_compute. reflexivity.
Qed.

(** C1 on scenario A: the input ends while the entry opened by
    "warn: Boot" holds the line "Retrying"; the generator returns without
    closing it, and only the first entry is yielded.  (The empty input
    yields nothing and raises nothing.) *)
Theorem scenario_A_last_entry_not_closed :
  convert_records scenario_A
  = ([{| LogEntry.occurred_at := 10; LogEntry.tag := "Boot";
         LogEntry.level := "info"; LogEntry.message := "Started ok" |}], None)
  /\ convert_records [] = ([], None).
Proof. split; vm_compute; reflexivity. Qed.

(** C2 on scenario A: nothing is raised, two records are header lines, one
    entry is yielded. *)
Theorem scenario_A_one_entry_for_two_headers :
  snd (convert_records scenario_A) = None
  /\ header_count scenario_A = 2%nat
  /\ length (fst (convert_records scenario_A)) = 1%nat.
Proof. repeat split; vm_compute; reflexivity. Qed.

(** ** The grouper *)

Lemma append_to_group_lookup (groups : gmap string (list LogEntry.t))
    (entry : LogEntry.t) (t : string) :
  append_to_group groups entry !! t
  = if decide (LogEntry.tag entry = t)
    then Some (default [] (groups !! t) ++ [entry])
    else groups !! t.
Proof.
  unfold append_to_group. case_decide as E.
  - subst t. by rewrite lookup_insert_eq.
  - by rewrite lookup_insert_ne.
Qed.

(** The loop of [split_records] from any mapping: under each tag, the
    entries of that tag are appended in their order of arrival. *)
Lemma foldl_append_to_group_lookup (entries : list LogEntry.t) (t : string) :
  forall groups : gmap string (list LogEntry.t),
  foldl append_to_group groups entries !! t
  = match groups !! t, filter (fun e => LogEntry.tag e = t) entries with
    | None, [] => None
    | group, new => Some (default [] group ++ new)
    end.
Proof.
  induction entries as [|entry entries IH]; intros groups; simpl.
  - destruct (groups !! t); simpl; [by rewrite app_nil_r | done].
  - rewrite IH, append_to_group_lookup, filter_cons.
    case_decide as E; simpl.
    + rewrite <- app_assoc. simpl. by destruct (groups !! t).
    + done.
Qed.

(** C8: [split_records] returns a mapping for every finite sequence of
    entries; a tag is a key exactly when some entry has it, and its list is
    the entries with that tag in their order of arrival, a subsequence of
    the input. *)
Theorem split_records_groups (entries : list LogEntry.t) :
  exists groups,
    split_records (iter entries) = inr groups
    /\ (forall t,
          groups !! t
          = match filter (fun e => LogEntry.tag e = t) entries with
            | [] => None
            | group => Some group
            end)
    /\ (forall t group, groups !! t = Some group ->
          group = filter (fun e => LogEntry.tag e = t) entries
          /\ group <> []
          /\ sublist group entries).
Proof.
  eexists. split; [reflexivity|].
  assert (forall t,
            foldl append_to_group ∅ entries !! t
            = match filter (fun e => LogEntry.tag e = t) entries with
              | [] => None
              | group => Some group
              end) as Hlookup.
  { intros t. rewrite foldl_append_to_group_lookup, lookup_empty.
    by destruct (filter _ entries). }
  split; [exact Hlookup|].
  intros t group. simpl. rewrite Hlookup.
  destruct (filter _ entries) as [|e group'] eqn:E; [discriminate|].
  intros [= <-]. split; [done|]. split; [done|].
  rewrite <- E. apply sublist_filter.
Qed.

(** ** The tick clock *)

Lemma round_half_even_exact (q d : Z) : 0 < d -> round_half_even (q * d) d = q.
Proof.
  intros Hd. unfold round_half_even.
  rewrite Z.div_mul, Z.mod_mul by lia.
  destruct (Z.ltb_spec (2 * 0) d); [done | lia].
Qed.

(** The quotient of [d * (m * 2 ^ j)] by [d] is held exactly. *)
Lemma nearest_binary64_exact (d m j : Z) :
  0 < d -> 0 < m < 2 ^ 53 -> 0 <= j ->
  let e := Z.log2 m + j - 52 in
  nearest_binary64 (d * (m * 2 ^ j)) d = {| mant := m * 2 ^ (j - e); expo := e |}.
Proof.
  intros Hd Hm Hj e. unfold nearest_binary64.
  assert (0 <= Z.log2 m < 53) as Hlog.
  { split; [apply Z.log2_nonneg | apply Z.log2_lt_pow2; lia]. }
  replace (d * (m * 2 ^ j) * 2 ^ 1074 / d) with (m * 2 ^ (j + 1074)).
  2:{ rewrite Z.pow_add_r by lia.
      replace (d * (m * 2 ^ j) * 2 ^ 1074) with (m * (2 ^ j * 2 ^ 1074) * d) by ring.
      by rewrite Z.div_mul by lia. }
  rewrite Z.log2_mul_pow2 by lia.
  replace (Z.max (j + 1074 + Z.log2 m - 1126) (-1074)) with e by (unfold e; lia).
  f_equal.
  destruct (Z.leb_spec 0 e) as [He|He].
  - assert (2 ^ j = 2 ^ (j - e) * 2 ^ e) as ->.
    { rewrite <- Z.pow_add_r by (unfold e; lia). f_equal; lia. }
    replace (d * (m * (2 ^ (j - e) * 2 ^ e))) with (m * 2 ^ (j - e) * (d * 2 ^ e)) by ring.
    apply round_half_even_exact. pose proof (Z.pow_pos_nonneg 2 e). lia.
  - assert (2 ^ (j - e) = 2 ^ j * 2 ^ (- e)) as ->.
    { rewrite <- Z.pow_add_r by lia. f_equal; lia. }
    replace (d * (m * 2 ^ j) * 2 ^ (- e)) with (m * (2 ^ j * 2 ^ (- e)) * d) by ring.
    apply round_half_even_exact. lia.
Qed.

Lemma datetime_max_eq : datetime_max = 315537897599999999.
Proof. reflexivity. Qed.

Lemma datetime_max_lt : datetime_max < 2 ^ 59.
Proof. rewrite datetime_max_eq. reflexivity. Qed.

Lemma true_div_exact (m j : Z) :
  0 < m < 2 ^ 53 -> 0 <= j -> m * 2 ^ j <= datetime_max ->
  let e := Z.log2 m + j - 52 in
  true_div (10 * (m * 2 ^ j)) 10 = inr {| mant := m * 2 ^ (j - e); expo := e |}.
Proof.
  intros Hm Hj Hmax e. unfold true_div.
  assert (0 < 2 ^ j) as Hpow by (apply Z.pow_pos_nonneg; lia).
  assert (0 < 10 * (m * 2 ^ j)) as Hpos by nia.
  rewrite (Z.abs_eq (10 * (m * 2 ^ j))) by lia.
  rewrite (nearest_binary64_exact 10 m j) by lia. fold e.
  cbn [mant expo]. rewrite (Z.sgn_pos _ Hpos), Z.mul_1_l.
  assert (0 <= Z.log2 m < 53) as Hlog.
  { split; [apply Z.log2_nonneg | apply Z.log2_lt_pow2; lia]. }
  assert (m * 2 ^ (j - e) * 2 ^ Z.max 0 e < 2 ^ 1024) as Hfinite.
  { assert (2 ^ 59 < 2 ^ 1024) by (apply Z.pow_lt_mono_r; lia).
    pose proof datetime_max_lt.
    destruct (Z.le_gt_cases 0 e) as [He|He].
    - replace (Z.max 0 e) with e by lia.
      rewrite <- Z.mul_assoc, <- Z.pow_add_r by (unfold e; lia).
      replace (j - e + e) with j by lia. lia.
    - replace (Z.max 0 e) with 0 by lia. rewrite Z.pow_0_r, Z.mul_1_r.
      replace (j - e) with (52 - Z.log2 m) by (unfold e; lia).
      assert (m < 2 ^ Z.succ (Z.log2 m)) by (apply Z.log2_spec; lia).
      assert (2 ^ Z.succ (Z.log2 m) * 2 ^ (52 - Z.log2 m) = 2 ^ 53) as Heq.
      { rewrite <- Z.pow_add_r by lia. f_equal; lia. }
      assert (0 < 2 ^ (52 - Z.log2 m)) by (apply Z.pow_pos_nonneg; lia).
      assert (2 ^ 53 < 2 ^ 1024) by (apply Z.pow_lt_mono_r; lia).
      nia. }
  destruct (Z.leb_spec (2 ^ 1024) (m * 2 ^ (j - e) * 2 ^ Z.max 0 e)); [lia | reflexivity].
Qed.

Lemma timedelta_exact (m j e : Z) :
  0 <= m -> 0 <= j -> j - e >= 0 -> m * 2 ^ j <= datetime_max ->
  timedelta {| mant := m * 2 ^ (j - e); expo := e |} = inr (m * 2 ^ j).
Proof.
  intros Hm Hj He Hmax. unfold timedelta. cbn [mant expo].
  assert (0 <= 2 ^ j) as Hpow by (apply Z.pow_nonneg; lia).
  assert ((if 0 <=? e then m * 2 ^ (j - e) * 2 ^ e
           else round_half_even (m * 2 ^ (j - e)) (2 ^ (- e))) = m * 2 ^ j) as ->.
  { destruct (Z.leb_spec 0 e).
    - rewrite <- Z.mul_assoc, <- Z.pow_add_r by lia. do 2 f_equal. lia.
    - replace (2 ^ (j - e)) with (2 ^ j * 2 ^ (- e))
        by (rewrite <- Z.pow_add_r by lia; f_equal; lia).
      rewrite Z.mul_assoc. apply round_half_even_exact.
      apply Z.pow_pos_nonneg; lia. }
  assert (0 <= m * 2 ^ j / 86400000000 <= 3652059) as Hdays.
  { split; [apply Z.div_pos; nia|].
    apply Z.div_le_upper_bound; [lia|]. rewrite datetime_max_eq in Hmax. lia. }
  destruct (Z.ltb_spec (m * 2 ^ j / 86400000000) (-999999999)); [lia|].
  destruct (Z.ltb_spec 999999999 (m * 2 ^ j / 86400000000)); [lia | reflexivity].
Qed.

Lemma occurred_at_exact (self : LogRecord.t) (m j : Z) :
  0 < m < 2 ^ 53 -> 0 <= j -> m * 2 ^ j <= datetime_max ->
  LogRecord.ticks self = 10 * (m * 2 ^ j) ->
  LogRecord.occurred_at self = inr (datetime_min + m * 2 ^ j).
Proof.
  intros Hm Hj Hmax Hticks. unfold LogRecord.occurred_at.
  rewrite Hticks, true_div_exact by assumption. cbn [bind].
  assert (0 <= Z.log2 m < 53) as Hlog.
  { split; [apply Z.log2_nonneg | apply Z.log2_lt_pow2; lia]. }
  rewrite timedelta_exact by lia. cbn [bind].
  unfold datetime_add, UTC_localize.
  assert (0 <= m * 2 ^ j) by (pose proof (Z.pow_nonneg 2 j); nia).
  change datetime_min with 0. rewrite Z.add_0_l.
  destruct (Z.ltb_spec (m * 2 ^ j) 0); [lia|].
  destruct (Z.ltb_spec datetime_max (m * 2 ^ j)); [lia|].
  reflexivity.
Qed.

(** X16: where the clock is exact.  Tick 0 is the epoch, and ticks that
    are ten times a whole number [k] of microseconds which binary64 holds
    exactly and [datetime] can reach give the epoch plus [k] microseconds;
    doubling such ticks doubles the elapsed microseconds when the doubled
    instant is still in range. *)
Theorem occurred_at_exact_microseconds (self : LogRecord.t) (k : Z) :
  LogRecord.ticks self = 10 * k ->
  binary64_integer k ->
  k <= datetime_max ->
  LogRecord.occurred_at (record 0 (LogRecord.message self)) = inr datetime_min
  /\ LogRecord.occurred_at self = inr (datetime_min + k)
  /\ (2 * k <= datetime_max ->
      LogRecord.occurred_at (record (2 * LogRecord.ticks self) (LogRecord.message self))
      = inr (datetime_min + 2 * k)).
Proof.
  intros Hticks (m & j & Hm & Hj & ->) Hmax.
  split; [reflexivity|].
  destruct (Z.eq_dec m 0) as [->|Hm0].
  - rewrite Z.mul_0_l in *. destruct self as [ticks message]. simpl in *. subst ticks.
    split; [reflexivity | intros _; reflexivity].
  - split; [apply occurred_at_exact; (done || lia)|].
    intros Hmax2.
    replace (2 * (m * 2 ^ j)) with (m * 2 ^ (j + 1)) in *
      by (rewrite Z.pow_add_r by lia; ring).
    apply occurred_at_exact; try (done || lia).
    simpl. rewrite Hticks, Z.pow_add_r by lia. ring.
Qed.

Lemma occurred_at_exact_microseconds_witness :
  LogRecord.occurred_at (record 630000000000000000 "info: Boot")
  = inr (datetime_min + 63000000000000000)
  /\ LogRecord.occurred_at (record (2 * 630000000000000000) "info: Boot")
     = inr (datetime_min + 2 * 63000000000000000).
Proof.
  destruct (occurred_at_exact_microseconds
              (record 630000000000000000 "info: Boot") 63000000000000000)
    as (_ & Hinstant & Hdouble).
  - reflexivity.
  - exists 1922607421875, 15. split; [lia|]. split; [lia | reflexivity].
  - rewrite datetime_max_eq. lia.
  - split; [exact Hinstant|]. apply Hdouble. rewrite datetime_max_eq. lia.
Defined.

(** C6: tick 0 gives the epoch, but [self.ticks / 10] is a float of 53
    significant bits and the dates of today are more than [2 ^ 53]
    microseconds after the epoch, so whole microseconds are lost:
    637134336000000010 ticks are 2020-01-01T00:00:00.000001Z and give
    2020-01-01T00:00:00.000000Z, as do the ticks of the three microseconds
    after it, and the fifth to the eighth give the eighth;
    [10 * (2 ^ 53 + 1)] ticks, the first whole microsecond that binary64
    does not hold, give [2 ^ 53] microseconds.  (Below one microsecond
    [timedelta] rounds, ties to even: 3 and 5 ticks give the epoch, 6 ticks
    one microsecond and 15 ticks two.) *)
Theorem occurred_at_loses_microseconds :
  (forall message, LogRecord.occurred_at (record 0 message) = inr datetime_min)
  /\ (forall k, 0 <= k <= 4 ->
        LogRecord.occurred_at (record (10 * (63713433600000000 + k)) "info: Boot")
        = inr (datetime_min + 63713433600000000))
  /\ (forall k, 5 <= k <= 8 ->
        LogRecord.occurred_at (record (10 * (63713433600000000 + k)) "info: Boot")
        = inr (datetime_min + 63713433600000008))
  /\ LogRecord.occurred_at (record (10 * (2 ^ 53 + 1)) "info: Boot")
     = inr (datetime_min + 2 ^ 53)
  /\ LogRecord.occurred_at (record 3 "info: Boot") = inr (datetime_min + 0)
  /\ LogRecord.occurred_at (record 5 "info: Boot") = inr (datetime_min + 0)
  /\ LogRecord.occurred_at (record 6 "info: Boot") = inr (datetime_min + 1)
  /\ LogRecord.occurred_at (record 15 "info: Boot") = inr (datetime_min + 2).
Proof.
  split; [reflexivity|].
  split.
  { intros k Hk.
    assert (k = 0 \/ k = 1 \/ k = 2 \/ k = 3 \/ k = 4) as Hcases by lia.
    destruct Hcases as [->|[->|[->|[->| ->]]]]; vm_compute; reflexivity. }
  split.
  { intros k Hk.
    assert (k = 5 \/ k = 6 \/ k = 7 \/ k = 8) as Hcases by lia.
    destruct Hcases as [->|[->|[->| ->]]]; vm_compute; reflexivity. }
  repeat split; vm_compute; reflexivity.
Qed.

(** ** The range of the tick clock *)

Lemma round_half_even_bounds (n d : Z) :
  0 < d -> n - d <= d * round_half_even n d <= n + d.
Proof.
  intros Hd. unfold round_half_even.
  pose proof (Z.div_mod n d ltac:(lia)) as Hdiv.
  pose proof (Z.mod_pos_bound n d Hd) as Hmod.
  destruct (2 * (n mod d) <? d); [nia|].
  destruct (d <? 2 * (n mod d)); [nia|].
  destruct (Z.even (n / d)); nia.
Qed.

Lemma round_half_even_nonneg (n d : Z) : 0 <= n -> 0 < d -> 0 <= round_half_even n d.
Proof.
  intros Hn Hd. unfold round_half_even.
  pose proof (Z.div_pos n d Hn Hd).
  destruct (2 * (n mod d) <? d); [lia|].
  destruct (d <? 2 * (n mod d)); [lia|].
  destruct (Z.even (n / d)); lia.
Qed.

(** The rounded quotient of in-range ticks by 10: an exponent of at most 6,
    a mantissa that is not negative, and a value within 64 of the quotient. *)
Lemma nearest_binary64_ticks (n : Z) :
  0 <= n <= 10 * (datetime_max - 64) ->
  let x := nearest_binary64 n 10 in
  -1074 <= expo x <= 6
  /\ 0 <= mant x
  /\ (0 <= expo x -> 10 * (mant x * 2 ^ expo x) <= n + 640)
  /\ (expo x < 0 -> 10 * mant x <= n * 2 ^ (- expo x) + 10 /\ mant x <= 2 ^ 53).
Proof.
  intros Hn. pose proof datetime_max_lt as Hmax.
  unfold nearest_binary64. cbn [mant expo].
  set (Q := n * 2 ^ 1074 / 10). set (L := Z.log2 Q).
  set (e := Z.max (L - 1126) (-1074)).
  assert (0 < 2 ^ 1074) as Hp by (apply Z.pow_pos_nonneg; lia).
  assert (0 <= Q) as HQ by (apply Z.div_pos; nia).
  assert (0 <= L) as HL0 by apply Z.log2_nonneg.
  assert (Q < 2 ^ (L + 1)) as HQL.
  { destruct (Z.eq_dec Q 0) as [HQ0|HQ0].
    - unfold L. rewrite HQ0. reflexivity.
    - replace (L + 1) with (Z.succ L) by lia. apply Z.log2_spec. lia. }
  assert (n * 2 ^ 1074 < 10 * 2 ^ (L + 1)) as Hlt.
  { pose proof (Z.div_mod (n * 2 ^ 1074) 10 ltac:(lia)) as Hdiv.
    pose proof (Z.mod_pos_bound (n * 2 ^ 1074) 10 ltac:(lia)) as Hmod.
    fold Q in Hdiv. lia. }
  assert (L < 1133) as HL.
  { destruct (Z.eq_dec Q 0) as [HQ0|HQ0]; [unfold L; rewrite HQ0; reflexivity|].
    apply Z.log2_lt_pow2; [lia|]. apply Z.div_lt_upper_bound; [lia|].
    replace (2 ^ 1133) with (2 ^ 59 * 2 ^ 1074) by (rewrite <- Z.pow_add_r by lia; reflexivity).
    nia. }
  split; [unfold e; lia|].
  destruct (Z.leb_spec 0 e) as [He|He].
  - assert (0 < 2 ^ e <= 64) as Hpe.
    { split; [apply Z.pow_pos_nonneg; lia|].
      change 64 with (2 ^ 6). apply Z.pow_le_mono_r; unfold e in *; lia. }
    pose proof (round_half_even_bounds n (10 * 2 ^ e) ltac:(lia)) as Hb.
    split; [apply round_half_even_nonneg; lia|].
    split; [intros _; nia | lia].
  - set (k := - e) in *. assert (0 < k <= 1074) as Hk by (unfold k, e in *; lia).
    assert (0 < 2 ^ k) as Hpk by (apply Z.pow_pos_nonneg; lia).
    pose proof (round_half_even_bounds (n * 2 ^ k) 10 ltac:(lia)) as Hb.
    split; [apply round_half_even_nonneg; nia|].
    split; [lia|]. intros _. split; [lia|].
    assert (n * 2 ^ k < 10 * 2 ^ 53) as Hnk.
    { assert (0 < 2 ^ (1074 - k)) as HR by (apply Z.pow_pos_nonneg; lia).
      assert (2 ^ 1074 = 2 ^ k * 2 ^ (1074 - k)) as E1
        by (rewrite <- Z.pow_add_r by lia; f_equal; lia).
      assert (2 ^ (L + 1) <= 2 ^ 53 * 2 ^ (1074 - k)) as E2.
      { rewrite <- Z.pow_add_r by lia. apply Z.pow_le_mono_r; unfold k, e in *; lia. }
      rewrite E1 in Hlt.
      apply (Z.mul_lt_mono_pos_r (2 ^ (1074 - k))); [exact HR|]. nia. }
    lia.
Qed.

(** Every tick count from 0 up to 64 microseconds before [datetime.max] is
    within the range of the clock. *)
Lemma clock_ok_range (self : LogRecord.t) :
  0 <= LogRecord.ticks self <= 10 * (datetime_max - 64) -> clock_ok self.
Proof.
  intros Hn. unfold clock_ok, LogRecord.occurred_at.
  set (n := LogRecord.ticks self) in *.
  destruct (Z.eq_dec n 0) as [->|Hn0]; [by exists 0|].
  pose proof datetime_max_lt as Hmax.
  destruct (nearest_binary64_ticks n Hn) as (He & Hm & Hnonneg & Hneg).
  unfold true_div. rewrite (Z.abs_eq n) by lia.
  set (x := nearest_binary64 n 10) in *.
  assert (0 < 2 ^ Z.max 0 (expo x)) as Hp by (apply Z.pow_pos_nonneg; lia).
  assert (2 ^ 60 < 2 ^ 1024) as H60 by (apply Z.pow_lt_mono_r; lia).
  assert (2 ^ 53 < 2 ^ 60) as H53 by reflexivity.
  assert (mant x * 2 ^ Z.max 0 (expo x) < 2 ^ 60) as Hfinite.
  { change (2 ^ 60) with 1152921504606846976.
    change (2 ^ 59) with 576460752303423488 in Hmax.
    destruct (Z.le_gt_cases 0 (expo x)) as [Hx|Hx].
    - replace (Z.max 0 (expo x)) with (expo x) by lia. specialize (Hnonneg Hx). lia.
    - replace (Z.max 0 (expo x)) with 0 by lia. rewrite Z.pow_0_r.
      destruct (Hneg Hx) as [_ Hm53].
      change (2 ^ 53) with 9007199254740992 in Hm53. lia. }
  destruct (Z.leb_spec (2 ^ 1024) (mant x * 2 ^ Z.max 0 (expo x))); [lia|].
  cbn [bind]. rewrite (Z.sgn_pos n), Z.mul_1_l by lia.
  unfold timedelta. cbn [mant expo].
  set (us := if 0 <=? expo x then mant x * 2 ^ expo x
             else round_half_even (mant x) (2 ^ (- expo x))).
  assert (0 <= us <= datetime_max) as Hus.
  { unfold us. destruct (Z.leb_spec 0 (expo x)) as [Hx|Hx].
    - specialize (Hnonneg Hx).
      assert (0 <= 2 ^ expo x) by (apply Z.pow_nonneg; lia). split; [nia | lia].
    - destruct (Hneg Hx) as [Hm10 _].
      assert (0 < 2 ^ (- expo x)) as Hpk by (apply Z.pow_pos_nonneg; lia).
      pose proof (round_half_even_bounds (mant x) (2 ^ (- expo x)) Hpk) as Hb.
      split; [apply round_half_even_nonneg; lia|].
      set (r := round_half_even (mant x) (2 ^ (- expo x))) in *.
      set (P := 2 ^ (- expo x)) in *.
      assert (10 * r * P <= (n + 20) * P) as Hr by nia.
      assert (10 * r <= n + 20) by (apply (Z.mul_le_mono_pos_r _ _ P); lia).
      lia. }
  clearbody us.
  assert (0 <= us / 86400000000 <= 3652059) as Hdays.
  { split; [apply Z.div_pos; lia|].
    apply Z.div_le_upper_bound; [lia|]. rewrite datetime_max_eq in Hus. lia. }
  destruct (Z.ltb_spec (us / 86400000000) (-999999999)); [lia|].
  destruct (Z.ltb_spec 999999999 (us / 86400000000)); [lia|].
  cbn [orb bind]. unfold datetime_add. change datetime_min with 0. rewrite Z.add_0_l.
  destruct (Z.ltb_spec us 0); [lia|].
  destruct (Z.ltb_spec datetime_max us); [lia|].
  cbn [orb bind]. by eexists.
Qed.

(** * Further properties *)

(** ** The shape of a normalized tag *)

Lemma rstrip_last_char (s : string) (c : ascii) :
  last_char (rstrip s) = Some c -> is_space c = false.
Proof.
  induction s as [|a s IH]; simpl; [discriminate|].
  destruct (rstrip s) as [|b r] eqn:E.
  - destruct (is_space a) eqn:Ha; simpl; [discriminate|]. by intros [= <-].
  - exact IH.
Qed.

Lemma rstrip_first_char (s : string) (c : ascii) :
  (forall a, first_char s = Some a -> is_space a = false) ->
  first_char (rstrip s) = Some c -> is_space c = false.
Proof.
  destruct s as [|a s]; [discriminate|]. intros H.
  rewrite (rstrip_not_space a s) by (by apply H). intros [= <-]. by apply H.
Qed.

Lemma lstrip_first_char (s : string) (c : ascii) :
  first_char (lstrip s) = Some c -> is_space c = false.
Proof.
  destruct (lstrip_head s) as [->|(a & t & -> & Ha)]; [discriminate|].
  by intros [= <-].
Qed.

Lemma strip_no_edge_space (s : string) : no_edge_space (strip s).
Proof.
  unfold strip. split; intros c.
  - apply rstrip_first_char. apply lstrip_first_char.
  - apply rstrip_last_char.
Qed.

Lemma strip_id (s : string) : no_edge_space s -> strip s = s.
Proof.
  intros [Hfirst Hlast]. unfold strip.
  assert (lstrip s = s) as ->.
  { destruct s as [|a s]; [done|]. apply lstrip_not_space. by apply Hfirst. }
  clear Hfirst. induction s as [|a s IH]; [done|].
  destruct s as [|b s].
  - simpl. by rewrite (Hlast a).
  - specialize (IH Hlast). change (rstrip (String a (String b s)))
      with (match rstrip (String b s) with
            | EmptyString => if is_space a then EmptyString else String a EmptyString
            | r => String a r
            end).
    by rewrite IH.
Qed.

Lemma length_normalize_tag (s : string) :
  (String.length (normalize_tag s) <= String.length s)%nat.
Proof.
  unfold normalize_tag.
  pose proof (length_strip (replace_dot (sub_empty s))).
  pose proof (length_replace_dot (sub_empty s)).
  pose proof (length_sub_empty s). lia.
Qed.

Lemma normalize_tag_not_dot (s : string) : all_chars not_dot (normalize_tag s) = true.
Proof.
  unfold normalize_tag, strip.
  apply all_chars_rstrip, all_chars_lstrip, replace_dot_not_dot.
Qed.

(** X1: whatever the header remainder, the tag holds no "." and has no
    whitespace at either end, and it is never longer than the remainder. *)
Theorem normalize_tag_shape (source : string) :
  all_chars not_dot (normalize_tag source) = true
  /\ no_edge_space (normalize_tag source)
  /\ (String.length (normalize_tag source) <= String.length source)%nat.
Proof.
  split; [apply normalize_tag_not_dot|].
  split; [apply strip_no_edge_space | apply length_normalize_tag].
Qed.

(** X2: the strings that normalization leaves as they are, are those with
    no bracket marker, no "." and no whitespace at either end. *)
Theorem normalize_tag_fixed_iff (source : string) :
  normalize_tag source = source
  <-> search source = false
      /\ all_chars not_dot source = true
      /\ no_edge_space source.
Proof.
  split.
  - intros Heq. split; [|split].
    + destruct (search source) eqn:E; [|done].
      apply normalize_tag_shorter in E. rewrite Heq in E. lia.
    + rewrite <- Heq. apply normalize_tag_not_dot.
    + rewrite <- Heq. apply strip_no_edge_space.
  - intros (Hsearch & Hdot & Hedge). unfold normalize_tag.
    rewrite (sub_empty_id _ Hsearch), (replace_dot_id _ Hdot).
    by apply strip_id.
Qed.

(** ** The message of a closed entry *)

Lemma strip_empty_iff (s : string) : strip s = "" <-> whitespace_only s.
Proof.
  split; [|apply strip_whitespace].
  unfold strip, whitespace_only. induction s as [|a s IH]; [done|]. simpl.
  destruct (is_space a) eqn:Ha; [exact IH|].
  intros H. rewrite rstrip_not_space in H by done. discriminate.
Qed.

Lemma join_whitespace_iff (lines : list string) :
  whitespace_only (join newline lines) <-> Forall whitespace_only lines.
Proof.
  split; [|apply join_whitespace].
  unfold whitespace_only, join. induction lines as [|line lines IH]; [done|].
  destruct lines as [|line' lines].
  - intros H. by repeat constructor.
  - change (String.concat newline (line :: line' :: lines))
      with (line +:+ newline +:+ String.concat newline (line' :: lines)).
    rewrite !all_chars_app. intros [Hline [_ Hrest]%andb_true_iff]%andb_true_iff.
    constructor; [done | by apply IH].
Qed.

(** X3: the message of a closed entry never starts or ends with
    whitespace, and it is empty exactly when every accumulated line is
    whitespace only; tag, level and instant are those of the open entry. *)
Theorem close_message (self : OpenedLogEntry.t) :
  OpenedLogEntry.messages self <> [] ->
  exists entry,
    OpenedLogEntry.close self = inr entry
    /\ LogEntry.tag entry = OpenedLogEntry.tag self
    /\ LogEntry.level entry = OpenedLogEntry.level self
    /\ LogEntry.occurred_at entry = OpenedLogEntry.occurred_at self
    /\ no_edge_space (LogEntry.message entry)
    /\ (LogEntry.message entry = ""
        <-> Forall whitespace_only (OpenedLogEntry.messages self)).
Proof.
  intros Hne. unfold OpenedLogEntry.close.
  destruct (OpenedLogEntry.messages self) as [|line lines] eqn:E; [done|].
  eexists. split; [reflexivity|]. cbn [LogEntry.tag LogEntry.level
    LogEntry.occurred_at LogEntry.message].
  split; [done|]. split; [done|]. split; [done|].
  split; [apply strip_no_edge_space|].
  by rewrite strip_empty_iff, join_whitespace_iff.
Qed.

Lemma close_message_witness :
  exists entry,
    OpenedLogEntry.close
      {| OpenedLogEntry.occurred_at := 10; OpenedLogEntry.tag := "Boot";
         OpenedLogEntry.level := "info";
         OpenedLogEntry.messages := ["  first"; "second  "] |}
    = inr entry
    /\ LogEntry.message entry <> "".
Proof.
  destruct (close_message
              {| OpenedLogEntry.occurred_at := 10; OpenedLogEntry.tag := "Boot";
                 OpenedLogEntry.level := "info";
                 OpenedLogEntry.messages := ["  first"; "second  "] |})
    as (entry & Hclose & _ & _ & _ & _ & Hempty); [discriminate|].
  exists entry. split; [exact Hclose|].
  intros H. apply Hempty in H. apply Forall_cons in H as [H _]. discriminate H.
Defined.

(** ** The grouper keeps every entry *)

Lemma append_to_group_partition (groups : gmap string (list LogEntry.t))
    (entry : LogEntry.t) :
  concat (snd <$> map_to_list (append_to_group groups entry))
  ≡ₚ concat (snd <$> map_to_list groups) ++ [entry].
Proof.
  unfold append_to_group. set (t := LogEntry.tag entry).
  destruct (groups !! t) as [group|] eqn:E; simpl.
  - rewrite <- insert_delete_eq.
    rewrite map_to_list_insert by apply lookup_delete_eq.
    rewrite <- (map_to_list_delete groups t group E). simpl.
    rewrite <- !app_assoc. apply Permutation_app_head, Permutation_app_comm.
  - rewrite map_to_list_insert by done. simpl. apply Permutation_cons_append.
Qed.

Lemma foldl_append_to_group_partition (entries : list LogEntry.t) :
  forall groups : gmap string (list LogEntry.t),
  concat (snd <$> map_to_list (foldl append_to_group groups entries))
  ≡ₚ concat (snd <$> map_to_list groups) ++ entries.
Proof.
  induction entries as [|entry entries IH]; intros groups; simpl.
  - by rewrite app_nil_r.
  - rewrite IH, append_to_group_partition. by rewrite <- app_assoc.
Qed.

(** X4: grouping loses and duplicates nothing: the groups of the mapping,
    put end to end, are a permutation of the entries received, and every
    entry sits in the group of its own tag. *)
Theorem split_records_partition (entries : list LogEntry.t) :
  exists groups,
    split_records (iter entries) = inr groups
    /\ concat (snd <$> map_to_list groups) ≡ₚ entries
    /\ (forall entry, entry ∈ entries ->
          exists group, groups !! LogEntry.tag entry = Some group /\ entry ∈ group)
    /\ (forall t group entry, groups !! t = Some group -> entry ∈ group ->
          LogEntry.tag entry = t /\ entry ∈ entries).
Proof.
  eexists. split; [reflexivity|]. simpl.
  split; [|split].
  - rewrite foldl_append_to_group_partition, map_to_list_empty. done.
  - intros entry Hin. rewrite foldl_append_to_group_lookup, lookup_empty.
    assert (entry ∈ filter (fun e => LogEntry.tag e = LogEntry.tag entry) entries) as H
      by (by apply list_elem_of_filter).
    destruct (filter _ entries) as [|e group]; [by apply elem_of_nil in H|].
    eexists. split; [reflexivity | exact H].
  - intros t group entry. rewrite foldl_append_to_group_lookup, lookup_empty.
    destruct (filter _ entries) as [|e group'] eqn:E; [discriminate|].
    intros [= <-]. simpl. rewrite <- E. by intros [? ?]%list_elem_of_filter.
Qed.

(** ** What the entry builder yields *)

Lemma add_messages_fields (self : OpenedLogEntry.t) (lines : list string) :
  OpenedLogEntry.messages (add_messages self lines)
  = OpenedLogEntry.messages self ++ lines
  /\ OpenedLogEntry.tag (add_messages self lines) = OpenedLogEntry.tag self
  /\ OpenedLogEntry.level (add_messages self lines) = OpenedLogEntry.level self
  /\ OpenedLogEntry.occurred_at (add_messages self lines)
     = OpenedLogEntry.occurred_at self.
Proof.
  unfold add_messages. revert self.
  induction lines as [|line lines IH]; intros self; simpl.
  - by rewrite app_nil_r.
  - destruct (IH (OpenedLogEntry.add_message self line)) as (-> & -> & -> & ->).
    simpl. by rewrite <- app_assoc.
Qed.

(** The loop over continuation lines only appends them to the open entry. *)
Lemma convert_records_from_lines (lines rest : list LogRecord.t) :
  forall o : OpenedLogEntry.t,
  Forall (fun line => is_header line = false /\ clock_ok line) lines ->
  convert_records_from (Some o) (lines ++ rest)
  = convert_records_from (Some (add_messages o (LogRecord.message <$> lines))) rest.
Proof.
  induction lines as [|line lines IH]; intros o Hlines; [done|].
  apply Forall_cons in Hlines as [[Hline [instant Hclock]] Hlines].
  apply is_header_None in Hline. simpl. rewrite Hclock, Hline.
  by rewrite IH.
Qed.

(** The open entry of a block once its lines are read. *)
Lemma close_block (b : block) (h : LogEntryHeader.t) (instant : Z) :
  LogRecord.entry_header (block_header b) = Some h ->
  LogRecord.occurred_at (block_header b) = inr instant ->
  block_lines b <> [] ->
  exists entry,
    OpenedLogEntry.close
      (add_messages (OpenedLogEntry.init h instant)
         (LogRecord.message <$> block_lines b)) = inr entry
    /\ block_entry b entry.
Proof.
  intros Hh Hclock Hne. unfold OpenedLogEntry.close.
  destruct (add_messages_fields (OpenedLogEntry.init h instant)
              (LogRecord.message <$> block_lines b)) as (-> & -> & -> & ->).
  simpl. destruct (block_lines b) as [|line lines] eqn:E; [done|]. simpl.
  eexists. split; [reflexivity|]. exists h, instant. rewrite E.
  split; [exact Hh|]. split; [exact Hclock | reflexivity].
Qed.

Lemma well_formed_header (b : block) :
  well_formed b ->
  exists h instant,
    LogRecord.entry_header (block_header b) = Some h
    /\ LogRecord.occurred_at (block_header b) = inr instant.
Proof.
  intros (Hh & [instant Hclock] & _). unfold is_header in Hh.
  destruct (LogRecord.entry_header (block_header b)) as [h|]; [eauto | discriminate].
Qed.

Lemma last_cons_default {A : Type} (a d : A) (l : list A) :
  List.last (a :: l) d = List.last l a.
Proof.
  revert a d. induction l as [|x l IH]; intros a d; [done|].
  change (List.last (a :: x :: l) d) with (List.last (x :: l) d).
  by rewrite !IH.
Qed.

(** From the entry of block [b], open and holding its lines, over the
    blocks that follow and then any [tail]: every block but the last is
    closed by the header of the next one, and [tail] is read with the entry
    of the last block open. *)
Lemma convert_records_from_blocks (blocks : list block) :
  forall (b : block) (h : LogEntryHeader.t) (instant : Z),
  LogRecord.entry_header (block_header b) = Some h ->
  LogRecord.occurred_at (block_header b) = inr instant ->
  Forall well_formed blocks ->
  Forall (fun b => block_lines b <> []) (removelast (b :: blocks)) ->
  exists entries h' instant',
    LogRecord.entry_header (block_header (List.last blocks b)) = Some h'
    /\ LogRecord.occurred_at (block_header (List.last blocks b)) = inr instant'
    /\ Forall2 block_entry (removelast (b :: blocks)) entries
    /\ forall tail,
         convert_records_from
           (Some (add_messages (OpenedLogEntry.init h instant)
                    (LogRecord.message <$> block_lines b)))
           (blocks_records blocks ++ tail)
         = let run :=
             convert_records_from
               (Some (add_messages (OpenedLogEntry.init h' instant')
                        (LogRecord.message <$> block_lines (List.last blocks b))))
               tail in
           (entries ++ fst run, snd run).
Proof.
  induction blocks as [|b' blocks IH]; intros b h instant Hh Hclock Hwf Hne.
  - exists [], h, instant. split; [done|]. split; [done|]. split; [constructor|].
    intros tail. simpl. by destruct (convert_records_from _ tail).
  - change (removelast (b :: b' :: blocks)) with (b :: removelast (b' :: blocks)) in *.
    rewrite (last_cons_default b' b blocks).
    apply Forall_cons in Hwf as [Hwf' Hwf]. apply Forall_cons in Hne as [Hb Hne].
    destruct (well_formed_header b' Hwf') as (h1 & instant1 & Hh1 & Hclock1).
    destruct (close_block b h instant Hh Hclock Hb) as (entry & Hclose & Hentry).
    destruct (IH b' h1 instant1 Hh1 Hclock1 Hwf Hne)
      as (entries & h' & instant' & Hh' & Hclock' & Hall & Hrun).
    exists (entry :: entries), h', instant'.
    split; [done|]. split; [done|]. split; [by constructor|].
    intros tail.
    change (blocks_records (b' :: blocks) ++ tail)
      with (block_header b' :: ((block_lines b' ++ blocks_records blocks) ++ tail)).
    rewrite (convert_records_from_Some_header _ _ _ _ _ Hh1 Hclock1), Hclose.
    destruct Hwf' as (_ & _ & Hlines).
    rewrite <- app_assoc, (convert_records_from_lines _ _ _ Hlines), Hrun. done.
Qed.

(** The same from the start of the input. *)
Lemma convert_records_blocks_tail (b : block) (blocks : list block) :
  Forall well_formed (b :: blocks) ->
  Forall (fun b => block_lines b <> []) (removelast (b :: blocks)) ->
  exists entries h' instant',
    LogRecord.entry_header (block_header (List.last blocks b)) = Some h'
    /\ LogRecord.occurred_at (block_header (List.last blocks b)) = inr instant'
    /\ Forall2 block_entry (removelast (b :: blocks)) entries
    /\ forall tail,
         convert_records (blocks_records (b :: blocks) ++ tail)
         = let run :=
             convert_records_from
               (Some (add_messages (OpenedLogEntry.init h' instant')
                        (LogRecord.message <$> block_lines (List.last blocks b))))
               tail in
           (entries ++ fst run, snd run).
Proof.
  intros [Hwf Hwfs]%Forall_cons Hne.
  destruct (well_formed_header b Hwf) as (h & instant & Hh & Hclock).
  destruct (convert_records_from_blocks blocks b h instant Hh Hclock Hwfs Hne)
    as (entries & h' & instant' & Hh' & Hclock' & Hall & Hrun).
  exists entries, h', instant'. split; [done|]. split; [done|]. split; [done|].
  intros tail. rewrite <- Hrun. unfold convert_records.
  change (blocks_records (b :: blocks) ++ tail)
    with (block_header b :: ((block_lines b ++ blocks_records blocks) ++ tail)).
  simpl. rewrite Hclock, Hh. destruct Hwf as (_ & _ & Hlines).
  by rewrite <- app_assoc, (convert_records_from_lines _ _ _ Hlines).
Qed.

(** X5: on an input made of well-formed blocks of which all but the last
    hold at least one line, nothing is raised and the entries yielded are
    those of all the blocks but the last, in order: instant, level and
    normalized tag of the header, and the lines joined and stripped.  The
    last block is never yielded, with or without lines.  [convert] groups
    these entries by tag. *)
Theorem convert_records_well_formed (blocks : list block) :
  Forall well_formed blocks ->
  Forall (fun b => block_lines b <> []) (removelast blocks) ->
  exists entries groups,
    convert_records (blocks_records blocks) = (entries, None)
    /\ Forall2 block_entry (removelast blocks) entries
    /\ convert (blocks_records blocks) = inr groups
    /\ forall t,
         groups !! t
         = match filter (fun e => LogEntry.tag e = t) entries with
           | [] => None
           | group => Some group
           end.
Proof.
  intros Hwf Hne.
  assert (exists entries,
            convert_records (blocks_records blocks) = (entries, None)
            /\ Forall2 block_entry (removelast blocks) entries)
    as (entries & Hrun & Hall).
  { destruct blocks as [|b blocks]; [exists []; split; [done | constructor]|].
    destruct (convert_records_blocks_tail b blocks Hwf Hne)
      as (entries & h' & instant' & _ & _ & Hall & Hrun).
    exists entries. split; [|done].
    specialize (Hrun []). cbv zeta in Hrun.
    change (convert_records_from _ []) with (@nil LogEntry.t, @None exn) in Hrun.
    cbn [fst snd] in Hrun. by rewrite !app_nil_r in Hrun. }
  exists entries. eexists. split; [exact Hrun|]. split; [exact Hall|].
  unfold convert, split_records. rewrite Hrun. split; [reflexivity|].
  intros t. simpl. rewrite foldl_append_to_group_lookup, lookup_empty.
  by destruct (filter _ entries).
Qed.

Lemma convert_records_well_formed_witness :
  exists entries groups,
    convert_records (blocks_records scenario_A_blocks) = (entries, None)
    /\ Forall2 block_entry (removelast scenario_A_blocks) entries
    /\ convert (blocks_records scenario_A_blocks) = inr groups
    /\ forall t,
         groups !! t
         = match filter (fun e => LogEntry.tag e = t) entries with
           | [] => None
           | group => Some group
           end.
Proof.
  apply (convert_records_well_formed scenario_A_blocks).
  - assert (forall ticks message, 0 <= ticks <= 1000 -> clock_ok (record ticks message))
      as Hclock.
    { intros ticks message H. apply clock_ok_range. simpl.
      rewrite datetime_max_eq. lia. }
    assert (forall t1 m1 t2 m2,
              is_header (record t1 m1) = true -> is_header (record t2 m2) = false ->
              0 <= t1 <= 1000 -> 0 <= t2 <= 1000 ->
              well_formed {| block_header := record t1 m1;
                             block_lines := [record t2 m2] |}) as Hblock.
    { intros t1 m1 t2 m2 H1 H2 Ht1 Ht2. unfold well_formed. cbn [block_header block_lines].
      split; [exact H1|]. split; [apply Hclock; assumption|].
      apply Forall_cons. split; [|constructor].
      split; [exact H2 | apply Hclock; assumption]. }
    unfold scenario_A_blocks.
    apply Forall_cons. split; [apply Hblock; (reflexivity || lia)|].
    apply Forall_cons. split; [apply Hblock; (reflexivity || lia) | constructor].
  - apply Forall_cons. split; [discriminate | constructor].
Defined.

(** X6: well-formed blocks holding at least one line each, then a
    well-formed block without lines, then another header line whose ticks
    the clock accepts: the generator yields the entries of the blocks
    before and then raises the [ValueError] of [close] for the block
    without lines; nothing after the second header is read, and [convert]
    returns no mapping.  (When the clock refuses the ticks of the second
    header, line 108 raises [OverflowError] before [close] is called.) *)
Theorem convert_records_empty_entry (good : list block) (bad : block)
    (next : LogRecord.t) (rest : list LogRecord.t) :
  Forall well_formed good ->
  Forall (fun b => block_lines b <> []) good ->
  well_formed bad ->
  block_lines bad = [] ->
  is_header next = true ->
  clock_ok next ->
  exists entries h instant,
    LogRecord.entry_header (block_header bad) = Some h
    /\ LogRecord.occurred_at (block_header bad) = inr instant
    /\ Forall2 block_entry good entries
    /\ convert_records (blocks_records (good ++ [bad]) ++ next :: rest)
       = (entries,
          Some (ValueError_no_messages
                  (normalize_tag (LogEntryHeader.message h)) instant))
    /\ convert (blocks_records (good ++ [bad]) ++ next :: rest)
       = inl (ValueError_no_messages
                (normalize_tag (LogEntryHeader.message h)) instant).
Proof.
  intros Hwf Hne Hbad Hlines Hnext Hclock.
  assert (exists b blocks, good ++ [bad] = b :: blocks /\ List.last blocks b = bad)
    as (b & blocks & Heq & Hlast).
  { destruct good as [|g good]; [by exists bad, []|].
    exists g, (good ++ [bad]). split; [done|].
    rewrite <- (last_cons_default g g). rewrite app_comm_cons. apply last_last. }
  assert (removelast (b :: blocks) = good) as Hremove
    by (rewrite <- Heq; apply removelast_last).
  destruct (convert_records_blocks_tail b blocks)
    as (entries & h & instant & Hh & Hinstant & Hall & Hrun).
  { rewrite <- Heq. apply Forall_app. split; [done | by constructor]. }
  { by rewrite Hremove. }
  rewrite Hlast in Hh, Hinstant. rewrite Hremove in Hall.
  specialize (Hrun (next :: rest)). rewrite Hlast, <- Heq, Hlines in Hrun.
  assert (convert_records_from
            (Some (add_messages (OpenedLogEntry.init h instant) (LogRecord.message <$> [])))
            (next :: rest)
          = raise (ValueError_no_messages
                     (normalize_tag (LogEntryHeader.message h)) instant)) as Hraise.
  { destruct Hclock as [instant_next Hclock]. unfold is_header in Hnext.
    destruct (LogRecord.entry_header next) as [h_next|] eqn:E; [|discriminate].
    rewrite (convert_records_from_Some_header _ _ _ _ _ E Hclock).
    by rewrite close_no_messages. }
  rewrite Hraise in Hrun. cbv zeta in Hrun. unfold raise in Hrun.
  cbn [fst snd] in Hrun. rewrite app_nil_r in Hrun.
  exists entries, h, instant. split; [done|]. split; [done|]. split; [done|].
  split; [exact Hrun|]. unfold convert, split_records. by rewrite Hrun.
Qed.

Lemma convert_records_empty_entry_witness :
  exists entries h instant,
    LogRecord.entry_header (record 300 "warn: Boot") = Some h
    /\ LogRecord.occurred_at (record 300 "warn: Boot") = inr instant
    /\ Forall2 block_entry
         [{| block_header := record 100 "info: Boot";
             block_lines := [record 200 "Started ok"] |}] entries
    /\ convert_records
         (blocks_records
            ([{| block_header := record 100 "info: Boot";
                 block_lines := [record 200 "Started ok"] |}]
             ++ [{| block_header := record 300 "warn: Boot"; block_lines := [] |}])
          ++ record 400 "info: Next" :: [record 500 "never read"])
       = (entries,
          Some (ValueError_no_messages
                  (normalize_tag (LogEntryHeader.message h)) instant))
    /\ convert
         (blocks_records
            ([{| block_header := record 100 "info: Boot";
                 block_lines := [record 200 "Started ok"] |}]
             ++ [{| block_header := record 300 "warn: Boot"; block_lines := [] |}])
          ++ record 400 "info: Next" :: [record 500 "never read"])
       = inl (ValueError_no_messages
                (normalize_tag (LogEntryHeader.message h)) instant).
Proof.
  assert (forall ticks message, 0 <= ticks <= 1000 -> clock_ok (record ticks message))
    as Hclock.
  { intros ticks message H. apply clock_ok_range. simpl.
    rewrite datetime_max_eq. lia. }
  apply (convert_records_empty_entry
           [{| block_header := record 100 "info: Boot";
               block_lines := [record 200 "Started ok"] |}]
           {| block_header := record 300 "warn: Boot"; block_lines := [] |}
           (record 400 "info: Next") [record 500 "never read"]).
  - apply Forall_cons. split; [|constructor].
    unfold well_formed. cbn [block_header block_lines].
    split; [reflexivity|]. split; [apply Hclock; lia|].
    apply Forall_cons. split; [|constructor].
    split; [reflexivity | apply Hclock; lia].
  - apply Forall_cons. split; [discriminate | constructor].
  - unfold well_formed. cbn [block_header block_lines].
    split; [reflexivity|]. split; [apply Hclock; lia | constructor].
  - reflexivity.
  - reflexivity.
  - apply Hclock. lia.
Defined.

(** ** What holds of every yielded entry *)

Lemma occurred_at_range (self : LogRecord.t) (instant : Z) :
  LogRecord.occurred_at self = inr instant ->
  datetime_min <= instant <= datetime_max.
Proof.
  unfold LogRecord.occurred_at.
  destruct (true_div (LogRecord.ticks self) 10) as [e|x]; [discriminate|]. cbn [bind].
  destruct (timedelta x) as [e|td]; [discriminate|]. cbn [bind].
  unfold datetime_add, UTC_localize.
  destruct (Z.ltb_spec (datetime_min + td) datetime_min); [discriminate|].
  destruct (Z.ltb_spec datetime_max (datetime_min + td)); [discriminate|].
  cbn [orb bind]. intros [= <-]. lia.
Qed.

Lemma init_ok (record : LogRecord.t) (h : LogEntryHeader.t) (instant : Z) :
  LogRecord.entry_header record = Some h ->
  LogRecord.occurred_at record = inr instant ->
  opened_ok (OpenedLogEntry.init h instant).
Proof.
  intros Hh Hclock. unfold opened_ok. simpl.
  split; [by apply (entry_header_for_Some _ _ _ Hh)|].
  split; [apply normalize_tag_not_dot|].
  split; [apply strip_no_edge_space | by apply (occurred_at_range record)].
Qed.

Lemma close_ok (o : OpenedLogEntry.t) (entry : LogEntry.t) :
  opened_ok o -> OpenedLogEntry.close o = inr entry -> entry_ok entry.
Proof.
  intros (Hlevel & Hdot & Hedge & Hrange). unfold OpenedLogEntry.close.
  destruct (OpenedLogEntry.messages o); [discriminate|]. intros [= <-].
  unfold entry_ok. cbn [LogEntry.tag LogEntry.level LogEntry.occurred_at LogEntry.message].
  split; [done|]. split; [done|]. split; [done|].
  split; [apply strip_no_edge_space | done].
Qed.

Lemma convert_records_from_entries_ok (source : list LogRecord.t) :
  forall opened : option OpenedLogEntry.t,
  (forall o, opened = Some o -> opened_ok o) ->
  Forall entry_ok (fst (convert_records_from opened source)).
Proof.
  induction source as [|record source IH]; intros opened Hopened; [constructor|].
  cbn [convert_records_from].
  destruct (LogRecord.occurred_at record) as [e|instant] eqn:Hclock; [constructor|].
  destruct (LogRecord.entry_header record) as [h|] eqn:Hh.
  - assert (Forall entry_ok
              (fst (convert_records_from (Some (OpenedLogEntry.init h instant)) source)))
      as Hrest.
    { apply IH. intros o [= <-]. by apply (init_ok record). }
    destruct opened as [o|]; [|exact Hrest].
    destruct (OpenedLogEntry.close o) as [e|entry] eqn:Hclose; [constructor|].
    cbn [yield fst]. constructor; [|exact Hrest].
    apply (close_ok o); [by apply Hopened | done].
  - destruct opened as [o|]; [|constructor]. apply IH.
    intros o' [= <-]. exact (Hopened o eq_refl).
Qed.

(** X7: whatever the input, and also when the run ends in an exception,
    every entry yielded has a level of [LOG_LEVELS], a tag without "." and
    without whitespace at either end, a message without whitespace at
    either end, and an instant from [datetime.min] to [datetime.max]. *)
Theorem convert_records_entries_ok (source : list LogRecord.t) :
  Forall entry_ok (fst (convert_records source)).
Proof. apply convert_records_from_entries_ok. discriminate. Qed.

(** ** Rounding to the nearest, ties to even *)

Lemma round_half_even_floor (n d : Z) :
  round_half_even n d = n / d \/ round_half_even n d = n / d + 1.
Proof.
  unfold round_half_even.
  destruct (2 * (n mod d) <? d); [by left|].
  destruct (d <? 2 * (n mod d)); [by right|].
  destruct (Z.even (n / d)); [by left | by right].
Qed.

(** The result is within half a unit of the quotient. *)
Lemma round_half_even_half (n d : Z) :
  0 < d -> 2 * n - d <= 2 * (d * round_half_even n d) <= 2 * n + d.
Proof.
  intros Hd. unfold round_half_even.
  pose proof (Z.div_mod n d ltac:(lia)) as Hdiv.
  pose proof (Z.mod_pos_bound n d Hd) as Hmod.
  destruct (Z.ltb_spec (2 * (n mod d)) d); [nia|].
  destruct (Z.ltb_spec d (2 * (n mod d))); [nia|].
  destruct (Z.even (n / d)); nia.
Qed.

Lemma round_half_even_mono (n1 n2 d : Z) :
  0 < d -> n1 <= n2 -> round_half_even n1 d <= round_half_even n2 d.
Proof.
  intros Hd Hn.
  pose proof (Z.div_le_mono n1 n2 d Hd Hn) as Hq.
  destruct (Z.eq_dec (n1 / d) (n2 / d)) as [Heq|Hne].
  - pose proof (Z.div_mod n1 d ltac:(lia)) as H1.
    pose proof (Z.div_mod n2 d ltac:(lia)) as H2.
    unfold round_half_even. rewrite <- Heq in *.
    destruct (Z.ltb_spec (2 * (n1 mod d)) d);
      destruct (Z.ltb_spec (2 * (n2 mod d)) d); try lia;
      destruct (Z.ltb_spec d (2 * (n1 mod d)));
      destruct (Z.ltb_spec d (2 * (n2 mod d))); try lia;
      destruct (Z.even (n1 / d)); lia.
  - destruct (round_half_even_floor n1 d), (round_half_even_floor n2 d); lia.
Qed.

Lemma round_half_even_scale (n d c : Z) :
  0 < d -> 0 < c -> round_half_even (n * c) (d * c) = round_half_even n d.
Proof.
  intros Hd Hc. unfold round_half_even.
  rewrite Z.div_mul_cancel_r, Z.mul_mod_distr_r by lia.
  destruct (Z.ltb_spec (2 * (n mod d * c)) (d * c));
    destruct (Z.ltb_spec (2 * (n mod d)) d); try nia.
  all: destruct (Z.ltb_spec (d * c) (2 * (n mod d * c)));
    destruct (Z.ltb_spec d (2 * (n mod d))); try nia.
  all: reflexivity.
Qed.

(** Monotone on fractions: [n1 / d1 <= n2 / d2]. *)
Lemma round_half_even_mono_frac (n1 d1 n2 d2 : Z) :
  0 < d1 -> 0 < d2 -> n1 * d2 <= n2 * d1 ->
  round_half_even n1 d1 <= round_half_even n2 d2.
Proof.
  intros H1 H2 Hle.
  rewrite <- (round_half_even_scale n1 d1 d2), <- (round_half_even_scale n2 d2 d1) by lia.
  rewrite (Z.mul_comm d2 d1). apply round_half_even_mono; [lia | exact Hle].
Qed.

Lemma round_half_even_one (n : Z) : round_half_even n 1 = n.
Proof.
  unfold round_half_even. rewrite Z.div_1_r, Z.mod_1_r. reflexivity.
Qed.

Lemma round_half_even_opp (n d : Z) :
  0 < d -> round_half_even (- n) d = - round_half_even n d.
Proof.
  intros Hd. unfold round_half_even.
  pose proof (Z.mod_pos_bound n d Hd) as Hmod.
  destruct (Z.eq_dec (n mod d) 0) as [Hz|Hnz].
  - rewrite Z.div_opp_l_z, Z.mod_opp_l_z, Hz by lia.
    destruct (Z.ltb_spec (2 * 0) d); [reflexivity | lia].
  - rewrite Z.div_opp_l_nz, Z.mod_opp_l_nz by lia.
    destruct (Z.ltb_spec (2 * (d - n mod d)) d);
      destruct (Z.ltb_spec (2 * (n mod d)) d); try lia;
      destruct (Z.ltb_spec d (2 * (d - n mod d)));
      destruct (Z.ltb_spec d (2 * (n mod d))); try lia.
    replace (- (n / d) - 1) with (- (n / d + 1)) by lia.
    rewrite Z.even_opp, Z.even_add. simpl (Z.even 1).
    destruct (Z.even (n / d)); simpl; lia.
Qed.

(** ** The float quotient *)

(** The mantissa has at most 53 bits, and exactly 53 unless the exponent is
    the least one. *)
Lemma nearest_binary64_mant (n d : Z) :
  0 < d -> 0 <= n ->
  let x := nearest_binary64 n d in
  -1074 <= expo x
  /\ 0 <= mant x <= 2 ^ 53
  /\ (-1074 < expo x -> 2 ^ 52 <= mant x).
Proof.
  intros Hd Hn. unfold nearest_binary64. cbn [mant expo].
  set (Q := n * 2 ^ 1074 / d). set (L := Z.log2 Q).
  set (e := Z.max (L - 1126) (-1074)).
  assert (0 < 2 ^ 1074) as Hp by (apply Z.pow_pos_nonneg; lia).
  assert (0 <= Q) as HQ by (apply Z.div_pos; nia).
  assert (0 <= L) as HL0 by apply Z.log2_nonneg.
  assert (Q < 2 ^ (L + 1)) as HQL.
  { destruct (Z.eq_dec Q 0) as [HQ0|HQ0].
    - unfold L. rewrite HQ0. reflexivity.
    - replace (L + 1) with (Z.succ L) by lia. apply Z.log2_spec. lia. }
  assert (0 < L -> 2 ^ L <= Q) as HLQ.
  { intros HL. apply Z.log2_spec. destruct (Z.le_gt_cases Q 0) as [H0|H0]; [|done].
    unfold L in HL. rewrite Z.log2_nonpos in HL by done. lia. }
  pose proof (Z.div_mod (n * 2 ^ 1074) d ltac:(lia)) as Hdiv. fold Q in Hdiv.
  pose proof (Z.mod_pos_bound (n * 2 ^ 1074) d Hd) as Hmod.
  assert (n * 2 ^ 1074 < d * 2 ^ (L + 1)) as Hupper by nia.
  assert (0 < L -> d * 2 ^ L <= n * 2 ^ 1074) as Hlower by (intros HL; specialize (HLQ HL); nia).
  split; [unfold e; lia|].
  destruct (Z.leb_spec 0 e) as [He|He].
  - assert (L = e + 1126) as HL by (unfold e in *; lia).
    assert (0 < 2 ^ e) as Hpe by (apply Z.pow_pos_nonneg; lia).
    assert (2 ^ (L + 1) = 2 ^ e * 2 ^ 53 * 2 ^ 1074) as E1.
    { rewrite <- !Z.pow_add_r by lia. f_equal; lia. }
    assert (2 ^ L = 2 ^ e * 2 ^ 52 * 2 ^ 1074) as E2.
    { rewrite <- !Z.pow_add_r by lia. f_equal; lia. }
    assert (n < 2 ^ 53 * (d * 2 ^ e)) as Hn53.
    { apply (Z.mul_lt_mono_pos_r (2 ^ 1074)); [done|]. rewrite E1 in Hupper. nia. }
    assert (2 ^ 52 * (d * 2 ^ e) <= n) as Hn52.
    { apply (Z.mul_le_mono_pos_r _ _ (2 ^ 1074)); [done|].
      specialize (Hlower ltac:(lia)). rewrite E2 in Hlower. nia. }
    split; [split|].
    + apply round_half_even_nonneg; lia.
    + rewrite <- (round_half_even_exact (2 ^ 53) (d * 2 ^ e)) by lia.
      apply round_half_even_mono; lia.
    + intros _. rewrite <- (round_half_even_exact (2 ^ 52) (d * 2 ^ e)) by lia.
      apply round_half_even_mono; lia.
  - set (k := - e) in *. assert (0 < k <= 1074) as Hk by (unfold k, e in *; lia).
    assert (0 < 2 ^ k) as Hpk by (apply Z.pow_pos_nonneg; lia).
    assert (0 < 2 ^ (1074 - k)) as HR by (apply Z.pow_pos_nonneg; lia).
    assert (2 ^ 1074 = 2 ^ k * 2 ^ (1074 - k)) as E0
      by (rewrite <- Z.pow_add_r by lia; f_equal; lia).
    assert (2 ^ (L + 1) <= 2 ^ 53 * 2 ^ (1074 - k)) as E1.
    { rewrite <- Z.pow_add_r by lia. apply Z.pow_le_mono_r; unfold k, e in *; lia. }
    assert (n * 2 ^ k < 2 ^ 53 * d) as Hn53.
    { apply (Z.mul_lt_mono_pos_r (2 ^ (1074 - k))); [done|]. rewrite E0 in Hupper. nia. }
    split; [split|].
    + apply round_half_even_nonneg; nia.
    + rewrite <- (round_half_even_exact (2 ^ 53) d) by lia.
      apply round_half_even_mono; lia.
    + intros Hnormal. assert (L = 1126 - k) as HL by (unfold k, e in *; lia).
      assert (2 ^ L = 2 ^ 52 * 2 ^ (1074 - k)) as E2.
      { rewrite <- Z.pow_add_r by lia. f_equal; lia. }
      assert (2 ^ 52 * d <= n * 2 ^ k) as Hn52.
      { apply (Z.mul_le_mono_pos_r _ _ (2 ^ (1074 - k))); [done|].
        specialize (Hlower ltac:(lia)). rewrite E2 in Hlower. rewrite E0 in Hlower. nia. }
      rewrite <- (round_half_even_exact (2 ^ 52) d) by lia.
      apply round_half_even_mono; lia.
Qed.

Lemma nearest_binary64_expo_mono (n1 n2 d : Z) :
  0 < d -> 0 <= n1 <= n2 ->
  expo (nearest_binary64 n1 d) <= expo (nearest_binary64 n2 d).
Proof.
  intros Hd Hn. unfold nearest_binary64. cbn [expo].
  assert (0 < 2 ^ 1074) as Hp by (apply Z.pow_pos_nonneg; lia).
  assert (n1 * 2 ^ 1074 / d <= n2 * 2 ^ 1074 / d) as HQ
    by (apply Z.div_le_mono; nia).
  pose proof (Z.log2_le_mono _ _ HQ). lia.
Qed.

(** A larger quotient never rounds to a smaller float: the values are
    compared as fractions with powers of 2 as denominators. *)
Lemma nearest_binary64_mono (n1 n2 d : Z) :
  0 < d -> 0 <= n1 <= n2 ->
  let x1 := nearest_binary64 n1 d in
  let x2 := nearest_binary64 n2 d in
  (mant x1 * 2 ^ Z.max 0 (expo x1)) * 2 ^ Z.max 0 (- expo x2)
  <= (mant x2 * 2 ^ Z.max 0 (expo x2)) * 2 ^ Z.max 0 (- expo x1).
Proof.
  intros Hd Hn x1 x2.
  pose proof (nearest_binary64_expo_mono n1 n2 d Hd Hn) as He. fold x1 x2 in He.
  destruct (nearest_binary64_mant n1 d Hd ltac:(lia)) as (He1 & Hm1 & _).
  destruct (nearest_binary64_mant n2 d Hd ltac:(lia)) as (He2 & Hm2 & Hnormal).
  fold x1 in He1, Hm1. fold x2 in He2, Hm2, Hnormal.
  destruct (Z.eq_dec (expo x1) (expo x2)) as [Heq|Hne].
  - assert (mant x1 <= mant x2) as Hm.
    { unfold x1, x2, nearest_binary64 in *. cbn [mant expo] in *.
      rewrite <- Heq.
      destruct (Z.leb_spec 0 (Z.max (Z.log2 (n1 * 2 ^ 1074 / d) - 1126) (-1074))).
      - apply round_half_even_mono; [|lia].
        apply Z.mul_pos_pos; [lia | apply Z.pow_pos_nonneg; lia].
      - apply round_half_even_mono; [lia|].
        apply Z.mul_le_mono_nonneg_r; [apply Z.pow_nonneg|]; lia. }
    rewrite <- Heq.
    assert (0 < 2 ^ Z.max 0 (expo x1)) by (apply Z.pow_pos_nonneg; lia).
    assert (0 < 2 ^ Z.max 0 (- expo x1)) by (apply Z.pow_pos_nonneg; lia).
    apply Z.mul_le_mono_nonneg_r; [lia|].
    apply Z.mul_le_mono_nonneg_r; [lia | exact Hm].
  - specialize (Hnormal ltac:(lia)).
    set (a1 := Z.max 0 (expo x1)). set (b1 := Z.max 0 (- expo x1)).
    set (a2 := Z.max 0 (expo x2)). set (b2 := Z.max 0 (- expo x2)).
    assert (2 * (2 ^ a1 * 2 ^ b2) <= 2 ^ a2 * 2 ^ b1) as Hpow.
    { rewrite <- !Z.pow_add_r by (unfold a1, a2, b1, b2; lia).
      replace (2 * 2 ^ (a1 + b2)) with (2 ^ (a1 + b2 + 1))
        by (rewrite (Z.pow_add_r 2 (a1 + b2) 1) by (unfold a1, b2; lia); lia).
      apply Z.pow_le_mono_r; unfold a1, a2, b1, b2; lia. }
    assert (0 < 2 ^ a1 * 2 ^ b2) as Hpos.
    { apply Z.mul_pos_pos; apply Z.pow_pos_nonneg; unfold a1, b2; lia. }
    change (2 ^ 53) with (2 * 2 ^ 52) in Hm1.
    set (T := 2 ^ 52) in *. set (P1 := 2 ^ a1 * 2 ^ b2) in *.
    set (P2 := 2 ^ a2 * 2 ^ b1) in *.
    assert (0 < T) by reflexivity.
    replace (mant x1 * 2 ^ a1 * 2 ^ b2) with (mant x1 * P1) by (unfold P1; ring).
    replace (mant x2 * 2 ^ a2 * 2 ^ b1) with (mant x2 * P2) by (unfold P2; ring).
    assert (mant x1 * P1 <= 2 * T * P1) by nia.
    assert (T * P2 <= mant x2 * P2) by nia.
    nia.
Qed.

(** ** The microseconds of the clock *)

Lemma clock_us_zero : clock_us 0 = 0.
Proof. reflexivity. Qed.

Lemma clock_us_opp (ticks : Z) : clock_us (- ticks) = - clock_us ticks.
Proof.
  unfold clock_us. rewrite Z.abs_opp, Z.sgn_opp.
  set (x := nearest_binary64 (Z.abs ticks) 10).
  destruct (Z.leb_spec 0 (expo x)); [ring|].
  rewrite Z.mul_opp_l. apply round_half_even_opp. apply Z.pow_pos_nonneg; lia.
Qed.

(** For ticks that are not negative, the microseconds are the float, as a
    fraction, rounded. *)
Lemma clock_us_fraction (ticks : Z) :
  0 <= ticks ->
  let x := nearest_binary64 ticks 10 in
  clock_us ticks
  = round_half_even (mant x * 2 ^ Z.max 0 (expo x)) (2 ^ Z.max 0 (- expo x)).
Proof.
  intros Ht x. destruct (Z.eq_dec ticks 0) as [->|Hne]; [reflexivity|].
  unfold clock_us. rewrite Z.abs_eq, Z.sgn_pos, Z.mul_1_l by lia. fold x.
  destruct (Z.leb_spec 0 (expo x)).
  - replace (Z.max 0 (expo x)) with (expo x) by lia.
    replace (Z.max 0 (- expo x)) with 0 by lia.
    by rewrite Z.pow_0_r, round_half_even_one.
  - replace (Z.max 0 (expo x)) with 0 by lia.
    replace (Z.max 0 (- expo x)) with (- expo x) by lia.
    by rewrite Z.pow_0_r, Z.mul_1_r.
Qed.

Lemma clock_us_nonneg (ticks : Z) : 0 <= ticks -> 0 <= clock_us ticks.
Proof.
  intros Ht. rewrite clock_us_fraction by done.
  destruct (nearest_binary64_mant ticks 10 ltac:(lia) Ht) as (_ & Hm & _).
  apply round_half_even_nonneg.
  - apply Z.mul_nonneg_nonneg; [lia | apply Z.pow_nonneg; lia].
  - apply Z.pow_pos_nonneg; lia.
Qed.

Lemma clock_us_mono_nonneg (t1 t2 : Z) :
  0 <= t1 <= t2 -> clock_us t1 <= clock_us t2.
Proof.
  intros Ht. rewrite !clock_us_fraction by lia.
  apply round_half_even_mono_frac.
  - apply Z.pow_pos_nonneg; lia.
  - apply Z.pow_pos_nonneg; lia.
  - by apply nearest_binary64_mono.
Qed.

Lemma clock_us_mono (t1 t2 : Z) : t1 <= t2 -> clock_us t1 <= clock_us t2.
Proof.
  intros Ht. destruct (Z.le_gt_cases 0 t1) as [H1|H1].
  - apply clock_us_mono_nonneg. lia.
  - destruct (Z.le_gt_cases 0 t2) as [H2|H2].
    + pose proof (clock_us_nonneg t2 H2) as Hpos.
      pose proof (clock_us_nonneg (- t1) ltac:(lia)) as H.
      rewrite clock_us_opp in H. lia.
    + pose proof (clock_us_mono_nonneg (- t2) (- t1) ltac:(lia)) as H.
      rewrite !clock_us_opp in H. lia.
Qed.

(** [occurred_at] returns the microseconds when they are an instant that
    [datetime] holds, and raises [OverflowError] otherwise, whichever of
    the division, [timedelta] and the addition raises it. *)
Lemma occurred_at_clock_us (self : LogRecord.t) :
  LogRecord.occurred_at self
  = if (0 <=? clock_us (LogRecord.ticks self))
       && (clock_us (LogRecord.ticks self) <=? datetime_max)
    then inr (clock_us (LogRecord.ticks self))
    else inl OverflowError.
Proof.
  set (t := LogRecord.ticks self).
  pose proof datetime_max_lt as Hmax. pose proof datetime_max_eq as Hmaxeq.
  assert (2 ^ 59 < 2 ^ 1024) as H59 by (apply Z.pow_lt_mono_r; lia).
  unfold LogRecord.occurred_at, true_div. fold t.
  destruct (nearest_binary64_mant (Z.abs t) 10 ltac:(lia) ltac:(lia)) as (He & Hm & _).
  set (x := nearest_binary64 (Z.abs t) 10) in *.
  destruct (Z.leb_spec (2 ^ 1024) (mant x * 2 ^ Z.max 0 (expo x))) as [Hover|Hfinite].
  - cbn [bind].
    assert (0 < expo x) as Hpos.
    { destruct (Z.le_gt_cases (expo x) 0) as [H0|H0]; [|done].
      replace (Z.max 0 (expo x)) with 0 in Hover by lia.
      rewrite Z.pow_0_r in Hover.
      assert (2 ^ 53 < 2 ^ 59) by reflexivity. lia. }
    replace (Z.max 0 (expo x)) with (expo x) in Hover by lia.
    assert (clock_us t = Z.sgn t * (mant x * 2 ^ expo x)) as Hus.
    { unfold clock_us. fold x. destruct (Z.leb_spec 0 (expo x)); [ring | lia]. }
    destruct (Z.lt_trichotomy t 0) as [Ht|[Ht|Ht]].
    + rewrite Z.sgn_neg in Hus by done.
      destruct (Z.leb_spec 0 (clock_us t)); [lia | reflexivity].
    + exfalso. unfold x in Hover. rewrite Ht in Hover.
      change (nearest_binary64 (Z.abs 0) 10) with {| mant := 0; expo := -1074 |} in Hover.
      cbn [mant] in Hover. lia.
    + rewrite Z.sgn_pos in Hus by done.
      destruct (Z.leb_spec (clock_us t) datetime_max); [lia|].
      by rewrite andb_false_r.
  - cbn [bind]. unfold timedelta. cbn [mant expo].
    change (if 0 <=? expo x then Z.sgn t * mant x * 2 ^ expo x
            else round_half_even (Z.sgn t * mant x) (2 ^ (- expo x)))
      with (clock_us t).
    set (us := clock_us t).
    destruct (Z.leb_spec 0 us) as [Hlow|Hlow];
      destruct (Z.leb_spec us datetime_max) as [Hhigh|Hhigh]; cbn [andb].
    + assert (0 <= us / 86400000000 <= 3652059) as Hdays.
      { split; [apply Z.div_pos; lia|]. apply Z.div_le_upper_bound; lia. }
      destruct (Z.ltb_spec (us / 86400000000) (-999999999)); [lia|].
      destruct (Z.ltb_spec 999999999 (us / 86400000000)); [lia|].
      cbn [orb bind]. unfold datetime_add, UTC_localize. change datetime_min with 0.
      rewrite Z.add_0_l.
      destruct (Z.ltb_spec us 0); [lia|].
      destruct (Z.ltb_spec datetime_max us); [lia | reflexivity].
    + destruct ((us / 86400000000 <? -999999999) || (999999999 <? us / 86400000000));
        [reflexivity|].
      cbn [bind]. unfold datetime_add. change datetime_min with 0. rewrite Z.add_0_l.
      destruct (Z.ltb_spec us 0); [reflexivity|].
      destruct (Z.ltb_spec datetime_max us); [reflexivity | lia].
    + destruct ((us / 86400000000 <? -999999999) || (999999999 <? us / 86400000000));
        [reflexivity|].
      cbn [bind]. unfold datetime_add. change datetime_min with 0. rewrite Z.add_0_l.
      destruct (Z.ltb_spec us 0); [reflexivity | lia].
    + lia.
Qed.

Lemma occurred_at_inr (self : LogRecord.t) (instant : Z) :
  LogRecord.occurred_at self = inr instant ->
  instant = clock_us (LogRecord.ticks self)
  /\ 0 <= clock_us (LogRecord.ticks self) <= datetime_max.
Proof.
  rewrite occurred_at_clock_us.
  destruct (Z.leb_spec 0 (clock_us (LogRecord.ticks self)));
    destruct (Z.leb_spec (clock_us (LogRecord.ticks self)) datetime_max);
    cbn [andb]; try discriminate.
  intros [= <-]. lia.
Qed.

(** X8: the clock never runs backwards: of two records whose ticks it
    accepts, the one with the larger or equal tick count gets the later or
    equal instant. *)
Theorem occurred_at_monotone (self other : LogRecord.t) (instant instant' : Z) :
  LogRecord.ticks self <= LogRecord.ticks other ->
  LogRecord.occurred_at self = inr instant ->
  LogRecord.occurred_at other = inr instant' ->
  instant <= instant'.
Proof.
  intros Hticks [-> _]%occurred_at_inr [-> _]%occurred_at_inr.
  by apply clock_us_mono.
Qed.

Lemma occurred_at_monotone_witness :
  exists instant instant',
    LogRecord.occurred_at (record 630000000000000000 "info: Boot") = inr instant
    /\ LogRecord.occurred_at (record 630000000000000050 "Started ok") = inr instant'
    /\ instant <= instant'.
Proof.
  exists 63000000000000000, 63000000000000008.
  split; [reflexivity|]. split; [reflexivity|].
  apply (occurred_at_monotone (record 630000000000000000 "info: Boot")
           (record 630000000000000050 "Started ok")).
  - simpl. lia.
  - reflexivity.
  - reflexivity.
Defined.

(** The microseconds are an instant of [datetime] exactly for the tick
    counts from -5 to 3155378975999999679. *)
Lemma clock_us_in_range (t : Z) :
  0 <= clock_us t <= datetime_max <-> -5 <= t <= 3155378975999999679.
Proof.
  assert (clock_us (-5) = 0) as Hm5 by (vm_compute; reflexivity).
  assert (clock_us (-6) = -1) as Hm6 by (vm_compute; reflexivity).
  assert (clock_us 3155378975999999679 = 315537897599999936) as Hlast
    by (vm_compute; reflexivity).
  assert (clock_us 3155378975999999680 = 315537897600000000) as Hnext
    by (vm_compute; reflexivity).
  pose proof datetime_max_eq as Hmax.
  split.
  - intros [Hlow Hhigh]. split.
    + destruct (Z.le_gt_cases (-5) t) as [Hge|Hlt]; [exact Hge|].
      pose proof (clock_us_mono t (-6) ltac:(lia)) as H. rewrite Hm6 in H. lia.
    + destruct (Z.le_gt_cases t 3155378975999999679) as [Hle|Hgt]; [exact Hle|].
      pose proof (clock_us_mono 3155378975999999680 t ltac:(lia)) as H.
      rewrite Hnext in H. lia.
  - intros [Hlow Hhigh].
    pose proof (clock_us_mono (-5) t Hlow) as H1. rewrite Hm5 in H1.
    pose proof (clock_us_mono t 3155378975999999679 Hhigh) as H2.
    rewrite Hlast in H2. lia.
Qed.

(** X9: [occurred_at] returns exactly for the tick counts from -5 to
    3155378975999999679, and raises [OverflowError] for every other one. *)
Theorem occurred_at_domain (self : LogRecord.t) :
  (clock_ok self <-> -5 <= LogRecord.ticks self <= 3155378975999999679)
  /\ (~ clock_ok self -> LogRecord.occurred_at self = inl OverflowError).
Proof.
  set (t := LogRecord.ticks self).
  unfold clock_ok. rewrite occurred_at_clock_us. fold t.
  rewrite <- (clock_us_in_range t).
  destruct (Z.leb_spec 0 (clock_us t)) as [Hlow|Hlow];
    [destruct (Z.leb_spec (clock_us t) datetime_max) as [Hhigh|Hhigh]|]; cbn [andb].
  - split.
    + split; [intros _; split; assumption | intros _; eexists; reflexivity].
    + intros H. exfalso. apply H. eexists. reflexivity.
  - split.
    + split; [intros [instant Heq]; discriminate Heq | intros [_ H]; lia].
    + intros _. reflexivity.
  - split.
    + split; [intros [instant Heq]; discriminate Heq | intros [H _]; lia].
    + intros _. reflexivity.
Qed.

Lemma nearest_binary64_expo_le (t j : Z) :
  0 <= t -> 0 <= j -> t < 10 * 2 ^ (53 + j) ->
  expo (nearest_binary64 t 10) <= j.
Proof.
  intros Ht Hj Hlt. unfold nearest_binary64. cbn [expo].
  assert (0 < 2 ^ 1074) as Hp by (apply Z.pow_pos_nonneg; lia).
  set (Q := t * 2 ^ 1074 / 10).
  assert (Q < 2 ^ (1127 + j)) as HQ.
  { apply Z.div_lt_upper_bound; [lia|].
    replace (2 ^ (1127 + j)) with (2 ^ (53 + j) * 2 ^ 1074)
      by (rewrite <- Z.pow_add_r by lia; f_equal; lia).
    nia. }
  destruct (Z.le_gt_cases Q 0) as [H0|H0].
  - rewrite Z.log2_nonpos by done. lia.
  - apply Z.log2_lt_pow2 in HQ; [lia | done].
Qed.

(** One rounding, to a multiple of [P]. *)
Lemma rounded_once (t m P B : Z) :
  0 < P <= B -> 2 * t - 10 * P <= 2 * (10 * P * m) <= 2 * t + 10 * P ->
  Z.abs (10 * (m * P) - t) <= 5 * B.
Proof. intros HP Hb. nia. Qed.

(** Two roundings: to a multiple of [1 / P], then to a whole number. *)
Lemma rounded_twice (t m us P : Z) :
  2 <= P ->
  2 * (t * P) - 10 <= 2 * (10 * m) <= 2 * (t * P) + 10 ->
  2 * m - P <= 2 * (P * us) <= 2 * m + P ->
  Z.abs (10 * us - t) <= 7.
Proof.
  intros HP Hb Hb'.
  assert ((10 * us - t) * (2 * P) <= 10 * P + 10) by nia.
  assert (- (10 * P + 10) <= (10 * us - t) * (2 * P)) by nia.
  assert (10 * us - t <= 7) by nia.
  assert (-7 <= 10 * us - t) by nia.
  lia.
Qed.

Lemma clock_us_accuracy (t j : Z) :
  0 < t -> 0 <= j -> t < 10 * 2 ^ (53 + j) ->
  Z.abs (10 * clock_us t - t) <= Z.max 7 (5 * 2 ^ j).
Proof.
  intros Ht Hj Hlt.
  pose proof (nearest_binary64_expo_le t j ltac:(lia) Hj Hlt) as Hej.
  unfold clock_us. rewrite (Z.abs_eq t), (Z.sgn_pos t), Z.mul_1_l by lia.
  unfold nearest_binary64 in *. cbn [mant expo] in *.
  set (e := Z.max (Z.log2 (t * 2 ^ 1074 / 10) - 1126) (-1074)) in *.
  destruct (Z.leb_spec 0 e) as [He|He].
  - assert (0 < 2 ^ e <= 2 ^ j) as Hpe.
    { split; [apply Z.pow_pos_nonneg; lia | apply Z.pow_le_mono_r; lia]. }
    pose proof (round_half_even_half t (10 * 2 ^ e) ltac:(lia)) as Hb.
    pose proof (rounded_once t (round_half_even t (10 * 2 ^ e)) (2 ^ e) (2 ^ j) Hpe Hb).
    cbv iota. lia.
  - assert (2 <= 2 ^ (- e)) as Hpk.
    { change 2 with (2 ^ 1) at 1. apply Z.pow_le_mono_r; lia. }
    pose proof (round_half_even_half (t * 2 ^ (- e)) 10 ltac:(lia)) as Hb.
    pose proof (round_half_even_half (round_half_even (t * 2 ^ (- e)) 10) (2 ^ (- e))
                  ltac:(lia)) as Hb'.
    pose proof (rounded_twice t _ _ _ Hpk Hb Hb'). cbv iota. lia.
Qed.

(** X10: the instant is ticks / 10 microseconds up to the rounding of the
    float: for ticks below [10 * 2 ^ (53 + j)] it is off by at most
    [5 * 2 ^ j] ticks (at most 7 ticks when that is less), so by at most 32
    microseconds over the whole range of [datetime]. *)
Theorem occurred_at_accuracy (self : LogRecord.t) (instant j : Z) :
  LogRecord.occurred_at self = inr instant ->
  0 <= j ->
  LogRecord.ticks self < 10 * 2 ^ (53 + j) ->
  Z.abs (10 * instant - LogRecord.ticks self) <= Z.max 7 (5 * 2 ^ j).
Proof.
  intros [-> Hok%clock_us_in_range]%occurred_at_inr Hj Hlt.
  set (t := LogRecord.ticks self) in *.
  destruct (Z.lt_trichotomy t 0) as [Hneg|[->|Hpos]].
  - pose proof (clock_us_mono t 0 ltac:(lia)) as H0. rewrite clock_us_zero in H0.
    pose proof (clock_us_mono (-5) t ltac:(lia)) as H5.
    assert (clock_us (-5) = 0) as E by (vm_compute; reflexivity).
    rewrite E in H5. assert (clock_us t = 0) as -> by lia. lia.
  - rewrite clock_us_zero. lia.
  - by apply clock_us_accuracy.
Qed.

Lemma occurred_at_accuracy_witness :
  exists instant,
    LogRecord.occurred_at (record 637134336000000015 "info: Boot") = inr instant
    /\ Z.abs (10 * instant - 637134336000000015) <= 40.
Proof.
  exists 63713433600000000. split; [vm_compute; reflexivity|].
  apply (occurred_at_accuracy (record 637134336000000015 "info: Boot")
           63713433600000000 3); [vm_compute; reflexivity | lia | reflexivity].
Defined.

(** ** Where the exceptions come from *)

Lemma occurred_at_out_of_range (self : LogRecord.t) :
  ~ (-5 <= LogRecord.ticks self <= 3155378975999999679) ->
  LogRecord.occurred_at self = inl OverflowError.
Proof.
  intros Hout. rewrite occurred_at_clock_us.
  destruct (Z.leb_spec 0 (clock_us (LogRecord.ticks self))) as [Hlow|Hlow];
    [destruct (Z.leb_spec (clock_us (LogRecord.ticks self)) datetime_max) as [Hhigh|Hhigh]|];
    cbn [andb]; try reflexivity.
  exfalso. apply Hout. apply clock_us_in_range. lia.
Qed.

Lemma occurred_at_error (self : LogRecord.t) (e : exn) :
  LogRecord.occurred_at self = inl e -> e = OverflowError.
Proof.
  rewrite occurred_at_clock_us.
  destruct ((0 <=? clock_us (LogRecord.ticks self))
            && (clock_us (LogRecord.ticks self) <=? datetime_max));
    [discriminate | by intros [= <-]].
Qed.





(** X11: a record whose ticks are outside -5 .. 3155378975999999679 ends
    the run with [OverflowError], header line or continuation line alike
    (the instant of a continuation line is computed though never used);
    the entries of the blocks read before it are yielded first, all but
    the last one, and [convert] returns no mapping. *)
Theorem convert_records_overflow (blocks : list block) (bad : LogRecord.t)
    (rest : list LogRecord.t) :
  Forall well_formed blocks ->
  Forall (fun b => block_lines b <> []) (removelast blocks) ->
  ~ (-5 <= LogRecord.ticks bad <= 3155378975999999679) ->
  exists entries,
    Forall2 block_entry (removelast blocks) entries
    /\ convert_records (blocks_records blocks ++ bad :: rest)
       = (entries, Some OverflowError)
    /\ convert (blocks_records blocks ++ bad :: rest) = inl OverflowError.
Proof.
  intros Hwf Hne Hbad. apply occurred_at_out_of_range in Hbad.
  assert (forall opened, convert_records_from opened (bad :: rest) = raise OverflowError)
    as Hraise by (intros opened; cbn [convert_records_from]; by rewrite Hbad).
  assert (exists entries,
            Forall2 block_entry (removelast blocks) entries
            /\ convert_records (blocks_records blocks ++ bad :: rest)
               = (entries, Some OverflowError)) as (entries & Hall & Hrun).
  { destruct blocks as [|b blocks].
    - exists []. split; [constructor | apply Hraise].
    - destruct (convert_records_blocks_tail b blocks Hwf Hne)
        as (entries & h' & instant' & _ & _ & Hall & Hrun).
      exists entries. split; [done|].
      rewrite Hrun, Hraise. cbv zeta. unfold raise. cbn [fst snd].
      by rewrite app_nil_r. }
  exists entries. split; [done|]. split; [done|].
  unfold convert, split_records. by rewrite Hrun.
Qed.

Lemma convert_records_overflow_witness :
  exists entries,
    Forall2 block_entry (removelast scenario_A_blocks) entries
    /\ convert_records
         (blocks_records scenario_A_blocks ++ record (-6) "one more line" :: [])
       = (entries, Some OverflowError)
    /\ convert (blocks_records scenario_A_blocks ++ record (-6) "one more line" :: [])
       = inl OverflowError.
Proof.
  assert (forall ticks message, 0 <= ticks <= 1000 -> clock_ok (record ticks message))
    as Hclock.
  { intros ticks message H. apply clock_ok_range. simpl.
    rewrite datetime_max_eq. lia. }
  assert (forall t1 m1 t2 m2,
            is_header (record t1 m1) = true -> is_header (record t2 m2) = false ->
            0 <= t1 <= 1000 -> 0 <= t2 <= 1000 ->
            well_formed {| block_header := record t1 m1;
                           block_lines := [record t2 m2] |}) as Hblock.
  { intros t1 m1 t2 m2 H1 H2 Ht1 Ht2. unfold well_formed. cbn [block_header block_lines].
    split; [exact H1|]. split; [apply Hclock; assumption|].
    apply Forall_cons. split; [|constructor].
    split; [exact H2 | apply Hclock; assumption]. }
  apply (convert_records_overflow scenario_A_blocks (record (-6) "one more line") []).
  - unfold scenario_A_blocks.
    apply Forall_cons. split; [apply Hblock; (reflexivity || lia)|].
    apply Forall_cons. split; [apply Hblock; (reflexivity || lia) | constructor].
  - apply Forall_cons. split; [discriminate | constructor].
  - simpl. lia.
Defined.

Lemma convert_records_from_Some_not_orphan (source : list LogRecord.t) :
  forall (o : OpenedLogEntry.t) (entries : list LogEntry.t) (message : string),
  convert_records_from (Some o) source
  <> (entries, Some (ValueError_without_header message)).
Proof.
  induction source as [|record source IH]; intros o entries message; [discriminate|].
  cbn [convert_records_from].
  destruct (LogRecord.occurred_at record) as [e|instant] eqn:Hclock.
  - apply occurred_at_error in Hclock as ->. discriminate.
  - destruct (LogRecord.entry_header record) as [h|]; [|apply IH].
    destruct (OpenedLogEntry.close o) as [e|entry] eqn:Hclose.
    + unfold OpenedLogEntry.close in Hclose.
      destruct (OpenedLogEntry.messages o); [|discriminate].
      injection Hclose as <-. discriminate.
    + unfold yield. cbn [fst snd].
      destruct (convert_records_from _ source) as [entries' r] eqn:E.
      cbn [fst snd]. intros [= <- ->]. by apply IH in E.
Qed.

(** X12: the [ValueError] of [convert_records] is raised at the first
    record of the input and nowhere else: when the run ends with it,
    nothing was yielded, the input starts with a continuation line whose
    ticks the clock accepts, and the exception carries the message of that
    line.  Once an entry is open, no continuation line raises it. *)
Theorem convert_records_without_header (source : list LogRecord.t)
    (entries : list LogEntry.t) (message : string) :
  convert_records source = (entries, Some (ValueError_without_header message)) ->
  entries = []
  /\ exists first rest,
       source = first :: rest
       /\ LogRecord.message first = message
       /\ LogRecord.entry_header first = None
       /\ clock_ok first.
Proof.
  unfold convert_records. destruct source as [|first rest]; [discriminate|].
  cbn [convert_records_from].
  destruct (LogRecord.occurred_at first) as [e|instant] eqn:Hclock.
  - apply occurred_at_error in Hclock as ->. discriminate.
  - destruct (LogRecord.entry_header first) as [h|] eqn:Hh.
    + intros Hrun. by apply convert_records_from_Some_not_orphan in Hrun.
    + intros [= <- <-]. split; [reflexivity|]. exists first, rest.
      split; [reflexivity|]. split; [reflexivity|]. split; [exact Hh|].
      by exists instant.
Qed.

Lemma convert_records_without_header_witness :
  @nil LogEntry.t = []
  /\ exists first rest,
       scenario_B = first :: rest
       /\ LogRecord.message first = "stray line"
       /\ LogRecord.entry_header first = None
       /\ clock_ok first.
Proof.
  apply (convert_records_without_header scenario_B [] "stray line").
  vm_compute. reflexivity.
Defined.

(** From any state, the [ValueError] of [close] comes from an entry without
    lines met by a header line: the entry open at the start, or the entry
    of a header line of the input that the next record closes. *)
Lemma convert_records_from_no_messages (source : list LogRecord.t) :
  forall (opened : option OpenedLogEntry.t) (entries : list LogEntry.t)
         (tag : string) (instant : Z),
  convert_records_from opened source
  = (entries, Some (ValueError_no_messages tag instant)) ->
  (exists o h2 rest,
     opened = Some o /\ source = h2 :: rest
     /\ OpenedLogEntry.messages o = []
     /\ OpenedLogEntry.tag o = tag /\ OpenedLogEntry.occurred_at o = instant
     /\ is_header h2 = true /\ clock_ok h2)
  \/ (exists before h1 h2 rest h,
        source = before ++ h1 :: h2 :: rest
        /\ LogRecord.entry_header h1 = Some h
        /\ LogRecord.occurred_at h1 = inr instant
        /\ tag = normalize_tag (LogEntryHeader.message h)
        /\ is_header h2 = true /\ clock_ok h2).
Proof.
  induction source as [|record source IH]; intros opened entries tag instant;
    [discriminate|].
  cbn [convert_records_from].
  destruct (LogRecord.occurred_at record) as [e|instant0] eqn:Hclock.
  { apply occurred_at_error in Hclock as ->. discriminate. }
  assert (forall entries',
            convert_records_from (Some (OpenedLogEntry.init
                                          match LogRecord.entry_header record with
                                          | Some h => h
                                          | None => {| LogEntryHeader.level := "";
                                                       LogEntryHeader.message := "" |}
                                          end instant0)) source
            = (entries', Some (ValueError_no_messages tag instant)) ->
            is_header record = true ->
            exists before h1 h2 rest h,
              record :: source = before ++ h1 :: h2 :: rest
              /\ LogRecord.entry_header h1 = Some h
              /\ LogRecord.occurred_at h1 = inr instant
              /\ tag = normalize_tag (LogEntryHeader.message h)
              /\ is_header h2 = true /\ clock_ok h2) as Hnext.
  { intros entries' Hrun Hrecord. unfold is_header in Hrecord.
    destruct (LogRecord.entry_header record) as [h|] eqn:Hh; [|discriminate].
    apply IH in Hrun
      as [(o & h2 & rest & [= <-] & -> & _ & <- & <- & Hh2 & Hc2)
         |(before & h1 & h2 & rest & h' & -> & Hh1 & Hc1 & -> & Hh2 & Hc2)].
    - exists [], record, h2, rest, h. split; [reflexivity|]. split; [exact Hh|].
      split; [exact Hclock|]. split; [reflexivity|]. split; assumption.
    - exists (record :: before), h1, h2, rest, h'. split; [reflexivity|].
      split; [exact Hh1|]. split; [exact Hc1|]. split; [reflexivity|].
      split; assumption. }
  assert (clock_ok record) as Hok by (by exists instant0).
  unfold is_header in Hnext |- *.
  destruct (LogRecord.entry_header record) as [h|] eqn:Hh.
  - destruct opened as [o|].
    + destruct (OpenedLogEntry.close o) as [e|entry] eqn:Hclose.
      * unfold OpenedLogEntry.close in Hclose.
        destruct (OpenedLogEntry.messages o) eqn:Hm; [|discriminate].
        injection Hclose as <-. intros [= <- <- <-]. left.
        exists o, record, source. split; [reflexivity|]. split; [reflexivity|].
        split; [exact Hm|]. split; [reflexivity|]. split; [reflexivity|].
        split; [unfold is_header; by rewrite Hh | exact Hok].
      * unfold yield.
        destruct (convert_records_from _ source) as [entries' r] eqn:E.
        cbn [fst snd]. intros [= <- ->]. right. by apply (Hnext entries').
    + intros Hrun. right. by apply (Hnext entries).
  - destruct opened as [o|]; [|discriminate].
    intros Hrun. right.
    apply IH in Hrun
      as [(o' & h2 & rest & [= <-] & _ & Hm & _)
         |(before & h1 & h2 & rest & h' & -> & Hh1 & Hc1 & -> & Hh2 & Hc2)].
    + simpl in Hm. by destruct (OpenedLogEntry.messages o).
    + exists (record :: before), h1, h2, rest, h'. split; [reflexivity|].
      split; [exact Hh1|]. split; [exact Hc1|]. split; [reflexivity|].
      split; assumption.
Qed.

(** X13: the [ValueError] of [close] has one cause, two header lines next
    to each other: when the run ends with it, the input holds a header line
    directly followed by another header line, the tag of the exception is
    the normalized tag of the first of the two and its instant is the
    instant of that line.  (A header line at the very end of the input
    raises nothing.) *)
Theorem convert_records_no_messages (source : list LogRecord.t)
    (entries : list LogEntry.t) (tag : string) (instant : Z) :
  convert_records source = (entries, Some (ValueError_no_messages tag instant)) ->
  exists before h1 h2 rest h,
    source = before ++ h1 :: h2 :: rest
    /\ LogRecord.entry_header h1 = Some h
    /\ LogRecord.occurred_at h1 = inr instant
    /\ tag = normalize_tag (LogEntryHeader.message h)
    /\ is_header h2 = true /\ clock_ok h2.
Proof.
  intros Hrun. unfold convert_records in Hrun.
  apply convert_records_from_no_messages in Hrun as [(o & _ & _ & [=] & _)|H].
  exact H.
Qed.

Lemma convert_records_no_messages_witness :
  exists before h1 h2 rest h,
    scenario_C = before ++ h1 :: h2 :: rest
    /\ LogRecord.entry_header h1 = Some h
    /\ LogRecord.occurred_at h1 = inr 1
    /\ "A" = normalize_tag (LogEntryHeader.message h)
    /\ is_header h2 = true /\ clock_ok h2.
Proof.
  apply (convert_records_no_messages scenario_C [] "A" 1).
  vm_compute. reflexivity.
Defined.

Lemma convert_records_from_overflow (source : list LogRecord.t) :
  forall (opened : option OpenedLogEntry.t) (entries : list LogEntry.t),
  convert_records_from opened source = (entries, Some OverflowError) ->
  exists before bad rest,
    source = before ++ bad :: rest
    /\ Forall clock_ok before
    /\ LogRecord.occurred_at bad = inl OverflowError.
Proof.
  induction source as [|record source IH]; intros opened entries; [discriminate|].
  cbn [convert_records_from].
  destruct (LogRecord.occurred_at record) as [e|instant] eqn:Hclock.
  { intros _. exists [], record, source. split; [reflexivity|].
    split; [constructor|]. by rewrite (occurred_at_error _ _ Hclock) in Hclock. }
  assert (clock_ok record) as Hok by (by exists instant).
  assert (forall opened' entries',
            convert_records_from opened' source = (entries', Some OverflowError) ->
            exists before bad rest,
              record :: source = before ++ bad :: rest
              /\ Forall clock_ok before
              /\ LogRecord.occurred_at bad = inl OverflowError) as Hnext.
  { intros opened' entries' (before & bad & rest & -> & Hbefore & Hbad)%IH.
    exists (record :: before), bad, rest. split; [reflexivity|].
    split; [by apply Forall_cons | exact Hbad]. }
  destruct (LogRecord.entry_header record) as [h|].
  - destruct opened as [o|]; [|apply Hnext].
    destruct (OpenedLogEntry.close o) as [e|entry] eqn:Hclose.
    + unfold OpenedLogEntry.close in Hclose.
      destruct (OpenedLogEntry.messages o); [|discriminate].
      injection Hclose as <-. discriminate.
    + unfold yield.
      destruct (convert_records_from _ source) as [entries' r] eqn:E.
      cbn [fst snd]. intros [= <- ->]. by apply Hnext in E.
  - destruct opened as [o|]; [apply Hnext | discriminate].
Qed.

(** X14: [OverflowError] has one cause, the clock: when the run ends with
    it, the input holds a record whose ticks are outside
    -5 .. 3155378975999999679, and the clock accepts the ticks of every
    record before it.  Neither [close] nor the header test raises it. *)
Theorem convert_records_overflow_cause (source : list LogRecord.t)
    (entries : list LogEntry.t) :
  convert_records source = (entries, Some OverflowError) ->
  exists before bad rest,
    source = before ++ bad :: rest
    /\ Forall clock_ok before
    /\ ~ (-5 <= LogRecord.ticks bad <= 3155378975999999679).
Proof.
  intros (before & bad & rest & -> & Hbefore & Hbad)%convert_records_from_overflow.
  exists before, bad, rest. split; [reflexivity|]. split; [exact Hbefore|].
  intros Hin%clock_us_in_range. rewrite occurred_at_clock_us in Hbad.
  destruct Hin as [Hlow%Z.leb_le Hhigh%Z.leb_le].
  rewrite Hlow, Hhigh in Hbad. discriminate.
Qed.

Lemma convert_records_overflow_cause_witness :
  exists before bad rest,
    scenario_A ++ [record 3155378975999999680 "late"] = before ++ bad :: rest
    /\ Forall clock_ok before
    /\ ~ (-5 <= LogRecord.ticks bad <= 3155378975999999679).
Proof.
  apply (convert_records_overflow_cause
           (scenario_A ++ [record 3155378975999999680 "late"])
           [{| LogEntry.occurred_at := 10; LogEntry.tag := "Boot";
               LogEntry.level := "info"; LogEntry.message := "Started ok" |}]).
  vm_compute. reflexivity.
Defined.

(** ** The inputs on which the generator returns *)

Lemma convert_records_blocks_run (blocks : list block) :
  Forall well_formed blocks ->
  Forall (fun b => block_lines b <> []) (removelast blocks) ->
  exists entries,
    convert_records (blocks_records blocks) = (entries, None)
    /\ Forall2 block_entry (removelast blocks) entries.
Proof.
  intros Hwf Hne.
  destruct blocks as [|b blocks]; [exists []; split; [done | constructor]|].
  destruct (convert_records_blocks_tail b blocks Hwf Hne)
    as (entries & h' & instant' & _ & _ & Hall & Hrun).
  exists entries. split; [|done].
  specialize (Hrun []). cbv zeta in Hrun.
  change (convert_records_from _ []) with (@nil LogEntry.t, @None exn) in Hrun.
  cbn [fst snd] in Hrun. by rewrite !app_nil_r in Hrun.
Qed.

(** With an entry open, a run that returns has read continuation lines and
    then whole blocks; a block (or the entry open at the start) that a
    header line closed held at least one line. *)
Lemma convert_records_from_Some_returns (source : list LogRecord.t) :
  forall (o : OpenedLogEntry.t) (entries : list LogEntry.t),
  convert_records_from (Some o) source = (entries, None) ->
  exists lines blocks,
    source = lines ++ blocks_records blocks
    /\ Forall (fun line => is_header line = false /\ clock_ok line) lines
    /\ Forall well_formed blocks
    /\ Forall (fun b => block_lines b <> []) (removelast blocks)
    /\ (blocks <> [] -> OpenedLogEntry.messages o = [] -> lines <> []).
Proof.
  induction source as [|record source IH]; intros o entries Hrun.
  { exists [], []. split; [reflexivity|]. split; [constructor|].
    split; [constructor|]. split; [constructor|]. intros H. by destruct H. }
  cbn [convert_records_from] in Hrun.
  destruct (LogRecord.occurred_at record) as [e|instant] eqn:Hclock; [discriminate|].
  assert (clock_ok record) as Hok by (by exists instant).
  destruct (LogRecord.entry_header record) as [h|] eqn:Hh.
  - destruct (OpenedLogEntry.close o) as [e|entry] eqn:Hclose; [discriminate|].
    unfold yield in Hrun.
    destruct (convert_records_from _ source) as [entries' r] eqn:E.
    cbn [fst snd] in Hrun. injection Hrun as <- ->.
    apply IH in E as (lines & blocks & -> & Hlines & Hwf & Hne & Hfirst).
    exists [], ({| block_header := record; block_lines := lines |} :: blocks).
    split; [reflexivity|]. split; [constructor|]. split; [|split].
    + apply Forall_cons. split; [|exact Hwf].
      split; [unfold is_header; cbn [block_header]; by rewrite Hh|].
      split; [exact Hok | exact Hlines].
    + destruct blocks as [|b' blocks]; [constructor|].
      change (removelast (?b :: b' :: blocks)) with (b :: removelast (b' :: blocks)).
      apply Forall_cons. split; [|exact Hne].
      cbn [block_lines]. apply Hfirst; [discriminate | reflexivity].
    + intros _ Hm. unfold OpenedLogEntry.close in Hclose. rewrite Hm in Hclose.
      discriminate.
  - apply IH in Hrun as (lines & blocks & -> & Hlines & Hwf & Hne & Hfirst).
    exists (record :: lines), blocks. split; [reflexivity|].
    split; [|split; [exact Hwf|split; [exact Hne|discriminate]]].
    apply Forall_cons. split; [|exact Hlines].
    split; [unfold is_header; by rewrite Hh | exact Hok].
Qed.

(** X15: [convert_records] returns without an exception on exactly the
    inputs made of blocks, each a header line followed by its continuation
    lines with all ticks within the clock's range, of which every block but
    the last holds at least one line (the empty input is the case of no
    block). *)
Theorem convert_records_returns_iff (source : list LogRecord.t) :
  (exists entries, convert_records source = (entries, None))
  <-> exists blocks,
        source = blocks_records blocks
        /\ Forall well_formed blocks
        /\ Forall (fun b => block_lines b <> []) (removelast blocks).
Proof.
  split.
  - intros [entries Hrun]. unfold convert_records in Hrun.
    destruct source as [|first rest].
    { exists []. split; [reflexivity|]. split; constructor. }
    cbn [convert_records_from] in Hrun.
    destruct (LogRecord.occurred_at first) as [e|instant] eqn:Hclock; [discriminate|].
    destruct (LogRecord.entry_header first) as [h|] eqn:Hh; [|discriminate].
    apply convert_records_from_Some_returns in Hrun
      as (lines & blocks & -> & Hlines & Hwf & Hne & Hfirst).
    exists ({| block_header := first; block_lines := lines |} :: blocks).
    split; [reflexivity|]. split.
    + apply Forall_cons. split; [|exact Hwf].
      split; [unfold is_header; cbn [block_header]; by rewrite Hh|].
      split; [by exists instant | exact Hlines].
    + destruct blocks as [|b' blocks]; [constructor|].
      change (removelast (?b :: b' :: blocks)) with (b :: removelast (b' :: blocks)).
      apply Forall_cons. split; [|exact Hne].
      cbn [block_lines]. apply Hfirst; [discriminate | reflexivity].
  - intros (blocks & -> & Hwf & Hne).
    destruct (convert_records_blocks_run blocks Hwf Hne) as (entries & Hrun & _).
    by exists entries.
Qed.
